(** * The workout sheet layout of [workout_template.py]

    A shallow embedding of [find_pairs_map] and [render_workout_pdf]
    and the properties of the pairing, the sequencing of the exercise
    rows and the page flow.

    Conventions of the embedding.
    - Lengths.  The source computes them as [k * mm] in binary64.  The
      first part takes them as exact multiples of one millimetre, the
      integers [k]: the rows, the blocks and the positions are stated on
      these.  Which page a row goes to is decided by a comparison of
      floats, which exact lengths do not reproduce where the cursor equals
      the limit; the part on the cursor in binary64 follows the loop once
      more with the cursor as the source computes it, and the page break is
      stated there.
    - The ReportLab canvas only accumulates drawing calls, so every step
      returns the calls it issues; the canvas page number is kept in the
      loop state.
    - A Python exception ends the run: [Raise e].  The local variables
      [reps] and [partner_reps] are bound on one branch only, so the
      state records whether they are bound. *)

From Stdlib Require Import ZArith String Ascii List.
From stdpp Require Import gmap strings list pretty sorting.
From Stdlib Require Import ZifyNat.
From Stdlib Require Import PrimFloat.

Open Scope Z_scope.

(** ** Python values and exceptions *)

(** A scalar of a pair declaration as the loader delivers it. *)
Inductive pyval : Type :=
  | PyNone
  | PyInt (n : Z).

Inductive exn : Type :=
  | TypeError
  | IndexError
  | UnboundLocalError.

Inductive result (A : Type) : Type :=
  | Ok (a : A)
  | Raise (e : exn).

Arguments Ok {A} a.
Arguments Raise {A} e.

#[global] Instance result_bind : MBind result := λ A B k r,
  match r with
  | Ok a => k a
  | Raise e => Raise e
  end.

(** Truth value of a scalar: [None] and [0] are falsy. *)
Definition truthy (v : pyval) : bool :=
  match v with
  | PyNone => false
  | PyInt n => negb (n =? 0)
  end.

(** [any(pair)] *)
Definition py_any (decl : list pyval) : bool := existsb truthy decl.

(** [int(v)] *)
Definition py_int (v : pyval) : result Z :=
  match v with
  | PyNone => Raise TypeError
  | PyInt n => Ok n
  end.

(** [pair[i]] *)
Definition py_index (decl : list pyval) (i : nat) : result pyval :=
  match decl !! i with
  | Some v => Ok v
  | None => Raise IndexError
  end.

(** ** [find_pairs_map] *)

(** [pairs.setdefault(a, []).append(b)] *)
Definition setdefault_append (a b : Z) (pairs : gmap Z (list Z)) : gmap Z (list Z) :=
  <[a := default [] (pairs !! a) ++ [b]]> pairs.

(** The [for pair in paired_sets] loop, from the dictionary built so far. *)
Fixpoint find_pairs_loop (paired_sets : list (list pyval)) (pairs : gmap Z (list Z))
  : result (gmap Z (list Z)) :=
  match paired_sets with
  | [] => Ok pairs
  | decl :: rest =>
      if negb (py_any decl) || (length decl <? 2)%nat then
        find_pairs_loop rest pairs
      else
        v0 ← py_index decl 0;
        a ← py_int v0;
        v1 ← py_index decl 1;
        b ← py_int v1;
        find_pairs_loop rest (setdefault_append b a (setdefault_append a b pairs))
  end.

Definition find_pairs_map (paired_sets : list (list pyval)) : result (gmap Z (list Z)) :=
  find_pairs_loop paired_sets ∅.

(** [pairs_map.get(ex_id, [])] *)
Definition partners_of (pairs_map : gmap Z (list Z)) (ex_id : Z) : list Z :=
  default [] (pairs_map !! ex_id).

(** ** Strings *)

(** ["-".join(...)] *)
Fixpoint join (sep : string) (l : list string) : string :=
  match l with
  | [] => ""
  | x :: l' =>
      match l' with
      | [] => x
      | _ :: _ => x +:+ sep +:+ join sep l'
      end
  end.

(** White space as [str.strip] removes it: the characters for which
    [str.isspace] holds.  Strings are sequences of UTF-8 bytes (see
    [sanitize]), so such a character is one to three bytes:
    U+0009 to U+000D and U+001C to U+0020 are one byte each; U+0085 and
    U+00A0 are C2 85 and C2 A0; U+1680 is E1 9A 80; U+2000 to U+200A,
    U+2028, U+2029 and U+202F are E2 80 followed by 80 to 8A, A8, A9 and
    AF; U+205F is E2 81 9F and U+3000 is E3 80 80. *)
Definition is_space (c : ascii) : bool :=
  let n := nat_of_ascii c in
  ((9 <=? n) && (n <=? 13) || (28 <=? n) && (n <=? 32))%nat.

Definition is_space2 (c1 c2 : ascii) : bool :=
  let a := nat_of_ascii c1 in
  let b := nat_of_ascii c2 in
  ((a =? 194) && ((b =? 133) || (b =? 160)))%nat.

Definition is_space3 (c1 c2 c3 : ascii) : bool :=
  let a := nat_of_ascii c1 in
  let b := nat_of_ascii c2 in
  let c := nat_of_ascii c3 in
  ((a =? 225) && (b =? 154) && (c =? 128)
   || (a =? 226) && (b =? 128)
      && ((128 <=? c) && (c <=? 138) || (c =? 168) || (c =? 169) || (c =? 175))
   || (a =? 226) && (b =? 129) && (c =? 159)
   || (a =? 227) && (b =? 128) && (c =? 128))%nat.

(** [.lstrip()] on the bytes in reading order.  With [backwards] the list
    is a reversed string, in which the bytes of a character come last byte
    first; a lead byte is never a continuation byte, so a match at the end
    of a string is a whole character. *)
Fixpoint lstrip (backwards : bool) (l : list ascii) : list ascii :=
  match l with
  | [] => []
  | c1 :: l1 =>
      if is_space c1 then lstrip backwards l1
      else
        match l1 with
        | [] => l
        | c2 :: l2 =>
            if (if backwards then is_space2 c2 c1 else is_space2 c1 c2)
            then lstrip backwards l2
            else
              match l2 with
              | [] => l
              | c3 :: l3 =>
                  if (if backwards then is_space3 c3 c2 c1 else is_space3 c1 c2 c3)
                  then lstrip backwards l3
                  else l
              end
        end
  end.

(** [.strip()] *)
Definition strip (s : string) : string :=
  string_of_list_ascii
    (rev (lstrip true (rev (lstrip false (list_ascii_of_string s))))).

(** ** Records of the exercise table and of a workout *)

(** A row of the exercise table.  [None] stands for a key that is absent;
    for [reps], [comment] and [rest] also for a key bound to [None], which
    the source does not tell apart. *)
Record exercise : Type := {
  ex_name : option string;
  ex_sets : option Z;
  ex_reps : option (list Z);
  ex_comment : option string;
  ex_rest : option Z
}.

Record workout : Type := {
  w_id : option Z;
  w_name : option string;
  w_exercises : list Z;
  w_paired_sets : list (list pyval)
}.

(** ** Page geometry, in millimetres *)

Definition page_h : Z := 297.
Definition margin : Z := 12.
Definition normal_gap : Z := 7.
Definition paired_gap : Z := 1.

(** [page_h - margin - 10 * mm] *)
Definition top_y : Z := page_h - margin - 10.

(** ** Drawing calls *)

(** The call site of [_draw_exercise_entry]: line 118 or line 147. *)
Inductive site : Type :=
  | Primary
  | Partner.

(** The arguments of one [_draw_exercise_entry] call, with the identifier
    the loop was at. *)
Record entry : Type := {
  en_site : site;
  en_id : Z;
  en_name : string;
  en_sets : Z;
  en_reps : string;
  en_comment : string;
  en_rest : option Z
}.

Inductive op : Type :=
  | ShowPage
  | DrawTitle (page : nat) (title : string)
  | DrawEntry (page : nat) (y : Z) (e : entry).

(** ** The state of the rendering loop *)

Record rstate : Type := {
  page : nat;
  y : Z;
  rendered : gset Z;
  reps : option string;
  partner_reps : option string
}.

Definition set_y (f : Z → Z) (st : rstate) : rstate :=
  {| page := page st; y := f (y st); rendered := rendered st;
     reps := reps st; partner_reps := partner_reps st |}.

(** The display fields both call sites compute from the exercise table
    (lines 97-108 and 126-137, which differ in variable names only).  The
    last component is the reps variable afterwards: untouched when the
    lookup misses. *)
Definition display_fields (exercises_map : gmap Z exercise) (ex_id : Z)
    (reps_var : option string)
  : result (string * Z * string * option Z * option string) :=
  match exercises_map !! ex_id with
  | None =>
      Ok ("Exercise #" +:+ pretty ex_id +:+ " (missing)", 3, "", None, reps_var)
  | Some ex =>
      let name := default ("#" +:+ pretty ex_id) (ex_name ex) in
      let sets := default 3 (ex_sets ex) in
      match ex_reps ex with
      | None => Raise TypeError
      | Some r =>
          Ok (name, sets, strip (default "" (ex_comment ex)), ex_rest ex,
              Some (join "-" (map pretty r)))
      end
  end.

(** [if y < margin + 30 * mm: c.showPage(); ...; y = page_h - margin - 10 * mm],
    in exact lengths.  The source makes this comparison on floats: see
    [page_break64]. *)
Definition page_break (title : string) (pg : nat) (cursor : Z) : list op * nat * Z :=
  if cursor <? margin + 30 then
    ([ShowPage; DrawTitle (S pg) title], S pg, top_y)
  else
    ([], pg, cursor).

(** Reading a local variable that may be unbound. *)
Definition read_local (v : option string) : result string :=
  match v with
  | Some s => Ok s
  | None => Raise UnboundLocalError
  end.

(** One iteration of [for partner_id in partners] (lines 126-149). *)
Definition render_partner (title : string) (exercises_map : gmap Z exercise)
    (partner_id : Z) (st : rstate) : result (list op * rstate) :=
  '(name, sets, comment, rest, preps) ← display_fields exercises_map partner_id (partner_reps st);
  let '(brk, pg, cursor) := page_break title (page st) (y st) in
  r ← read_local preps;
  Ok (brk ++ [DrawEntry pg cursor
                {| en_site := Partner; en_id := partner_id; en_name := name;
                   en_sets := sets; en_reps := r; en_comment := comment;
                   en_rest := rest |}],
      {| page := pg; y := cursor - 7; rendered := {[partner_id]} ∪ rendered st;
         reps := reps st; partner_reps := preps |}).

Fixpoint render_partners (title : string) (exercises_map : gmap Z exercise)
    (partners : list Z) (st : rstate) : result (list op * rstate) :=
  match partners with
  | [] => Ok ([], st)
  | partner_id :: rest =>
      '(o1, st1) ← render_partner title exercises_map partner_id st;
      '(o2, st2) ← render_partners title exercises_map rest st1;
      Ok (o1 ++ o2, st2)
  end.

(** [[p for p in pairs_map.get(ex_id, []) if p in exercises and p not in rendered]] *)
Definition select_partners (exercises : list Z) (pairs_map : gmap Z (list Z))
    (ex_id : Z) (rendered : gset Z) : list Z :=
  filter (λ p, p ∈ exercises ∧ p ∉ rendered) (partners_of pairs_map ex_id).

(** One iteration of [for ex_id in exercises] (lines 95-153). *)
Definition render_exercise (title : string) (exercises_map : gmap Z exercise)
    (exercises : list Z) (pairs_map : gmap Z (list Z))
    (ex_id : Z) (st : rstate) : result (list op * rstate) :=
  if decide (ex_id ∈ rendered st) then Ok ([], st)
  else
    '(name, sets, comment, rest, preps) ← display_fields exercises_map ex_id (reps st);
    let '(brk, pg, cursor) := page_break title (page st) (y st) in
    r ← read_local preps;
    let row := DrawEntry pg cursor
                 {| en_site := Primary; en_id := ex_id; en_name := name;
                    en_sets := sets; en_reps := r; en_comment := comment;
                    en_rest := rest |} in
    let st1 := {| page := pg; y := cursor - 8; rendered := {[ex_id]} ∪ rendered st;
                  reps := preps; partner_reps := partner_reps st |} in
    let partners := select_partners exercises pairs_map ex_id (rendered st1) in
    '(o2, st2) ←
       match partners with
       | [] => Ok ([], st1)
       | _ :: _ =>
           '(o, s) ← render_partners title exercises_map partners st1;
           Ok (o, set_y (λ v, v - paired_gap) s)
       end;
    Ok (brk ++ row :: o2, set_y (λ v, v - normal_gap) st2).

(** The [for ex_id in exercises] loop over the identifiers still to visit. *)
Fixpoint render_loop (title : string) (exercises_map : gmap Z exercise)
    (exercises : list Z) (pairs_map : gmap Z (list Z))
    (todo : list Z) (st : rstate) : result (list op * rstate) :=
  match todo with
  | [] => Ok ([], st)
  | ex_id :: rest =>
      '(o1, st1) ← render_exercise title exercises_map exercises pairs_map ex_id st;
      '(o2, st2) ← render_loop title exercises_map exercises pairs_map rest st1;
      Ok (o1 ++ o2, st2)
  end.

(** [workout.get("name", f"Workout {workout.get('id', '')}")] *)
Definition title_of (w : workout) : string :=
  default ("Workout " +:+ from_option pretty "" (w_id w)) (w_name w).

Definition initial_state : rstate :=
  {| page := 0; y := top_y; rendered := ∅; reps := None; partner_reps := None |}.

(** [render_workout_pdf]: the drawing calls made up to [c.save()]. *)
Definition render_workout_pdf (w : workout) (exercises_map : gmap Z exercise)
  : result (list op) :=
  let title := title_of w in
  pairs_map ← find_pairs_map (w_paired_sets w);
  '(o, _) ← render_loop title exercises_map (w_exercises w) pairs_map
              (w_exercises w) initial_state;
  Ok (DrawTitle 0 title :: o).

(** ** Views of the drawing calls *)

(** A drawn row: the page it is on, its vertical position and the call. *)
Definition placements (o : list op) : list (nat * Z * entry) :=
  flat_map (λ c, match c with DrawEntry pg v e => [(pg, v, e)] | _ => [] end) o.

Definition rendered_ids (o : list op) : list Z :=
  map (λ pl, en_id pl.2) (placements o).

(** Call site and identifier of every drawn row, in drawing order. *)
Definition rows (o : list op) : list (site * Z) :=
  map (λ pl, (en_site pl.2, en_id pl.2)) (placements o).

Definition page_indices (o : list op) : list nat :=
  map (λ pl, pl.1.1) (placements o).

(** ** Pair declarations *)

(** A declaration the loop of [find_pairs_map] passes over. *)
Definition skipped (decl : list pyval) : Prop :=
  (length decl < 2)%nat ∨ Forall (λ v, v = PyNone ∨ v = PyInt 0) decl.

(** A declaration whose first two values are the integers [a] and [b] and
    which has a value that is neither [None] nor [0]. *)
Definition declares (decl : list pyval) (a b : Z) : Prop :=
  (∃ tl, decl = PyInt a :: PyInt b :: tl) ∧ ¬ skipped decl.

(** ** Blocks *)

(** A primary exercise with the partners drawn under it. *)
Record block : Type := {
  primary : Z;
  partners : list Z
}.

Definition block_rows (b : block) : list (site * Z) :=
  (Primary, primary b) :: map (λ p, (Partner, p)) (partners b).

Definition members (b : block) : list Z := primary b :: partners b.

(** The partner rows at the front of a row sequence. *)
Fixpoint leading_partners (rs : list (site * Z)) : list Z :=
  match rs with
  | (Partner, i) :: rs' => i :: leading_partners rs'
  | _ => []
  end.

(** The blocks read off a row sequence: every primary row opens a block,
    the partner rows that follow it belong to it. *)
Fixpoint blocks_of (rs : list (site * Z)) : list block :=
  match rs with
  | [] => []
  | (Primary, i) :: rs' =>
      {| primary := i; partners := leading_partners rs' |} :: blocks_of rs'
  | (Partner, _) :: rs' => blocks_of rs'
  end.

(** The entry sequencer as the specification words it (section 4.2): walk
    the list with a set of identifiers already placed; an identifier not
    yet placed opens a block and pulls in its direct partners that are in
    the workout and not yet placed, in adjacency order. *)
Fixpoint sequence_loop (exercises : list Z) (adjacency : gmap Z (list Z))
    (todo : list Z) (placed : gset Z) : list block :=
  match todo with
  | [] => []
  | x :: rest =>
      if decide (x ∈ placed) then sequence_loop exercises adjacency rest placed
      else
        let placed1 := {[x]} ∪ placed in
        let ps := filter (λ p, p ∈ exercises ∧ p ∉ placed1) (partners_of adjacency x) in
        {| primary := x; partners := ps |}
          :: sequence_loop exercises adjacency rest (list_to_set ps ∪ placed1)
  end.

Definition sequence (exercises : list Z) (adjacency : gmap Z (list Z)) : list block :=
  sequence_loop exercises adjacency exercises ∅.

(** Position of the first occurrence of [x] in [l] ([length l] if none). *)
Fixpoint first_index (x : Z) (l : list Z) : nat :=
  match l with
  | [] => 0
  | a :: l' => if decide (x = a) then 0%nat else S (first_index x l')
  end.

(** Earliest position in the workout of a member of the block. *)
Definition first_member_index (exercises : list Z) (b : block) : nat :=
  foldr Nat.min (first_index (primary b) exercises)
        (map (λ p, first_index p exercises) (partners b)).

(** The list without the occurrences of identifiers already seen. *)
Fixpoint first_occurrences (seen : gset Z) (l : list Z) : list Z :=
  match l with
  | [] => []
  | x :: l' =>
      if decide (x ∈ seen) then first_occurrences seen l'
      else x :: first_occurrences ({[x]} ∪ seen) l'
  end.

(** ** Page flow *)

(** What a row takes off the cursor (lines 119 and 148). *)
Definition row_height (s : site) : Z :=
  match s with
  | Primary => 8
  | Partner => 7
  end.

(** What is taken off the cursor between a row drawn at site [s] and the
    next row: nothing before a partner row, the gaps of lines 151 and 153
    before the next primary row. *)
Definition gap_after (s next : site) : Z :=
  match next, s with
  | Partner, _ => 0
  | Primary, Primary => normal_gap
  | Primary, Partner => paired_gap + normal_gap
  end.

(** Page, position and call site of a drawn row. *)
Definition mark : Type := nat * Z * site.

Definition mark_of (pl : nat * Z * entry) : mark := (pl.1.1, pl.1.2, en_site pl.2).

Definition marks (o : list op) : list mark := map mark_of (placements o).

(** The cursor on reaching the row after the one marked [m]. *)
Definition arrival (m : mark) (next : site) : Z :=
  m.1.2 - row_height m.2 - gap_after m.2 next.

(** The row marked [m'] is placed after the row marked [m] as the test of
    lines 110 and 139 decides. *)
Definition follows (m m' : mark) : Prop :=
  let cursor := arrival m m'.2 in
  (cursor < margin + 30 → m'.1.1 = S m.1.1 ∧ m'.1.2 = top_y) ∧
  (margin + 30 ≤ cursor → m'.1.1 = m.1.1 ∧ m'.1.2 = cursor).

Fixpoint flow (m : mark) (ms : list mark) : Prop :=
  match ms with
  | [] => True
  | m' :: ms' => follows m m' ∧ flow m' ms'
  end.

(** The last element of [l], or [d]. *)
Definition final {A : Type} (d : A) (l : list A) : A := foldl (λ _ x, x) d l.

(** The drawing calls that realise a sequence of placements, from page
    [pg]: a row on another page than the one before it is preceded by
    [showPage] and the title. *)
Fixpoint ops_of (title : string) (pg : nat) (pls : list (nat * Z * entry)) : list op :=
  match pls with
  | [] => []
  | (p, v, e) :: pls' =>
      (if decide (p = pg) then [] else [ShowPage; DrawTitle p title])
        ++ DrawEntry p v e :: ops_of title p pls'
  end.

(** ** Relations used by the proofs *)

(** The adjacency is symmetric. *)
Definition symmetric (pairs : gmap Z (list Z)) : Prop :=
  ∀ a b, b ∈ partners_of pairs a ↔ a ∈ partners_of pairs b.

(** The state right after the row marked [m] is drawn. *)
Definition at_row (st : rstate) (m : mark) : Prop :=
  page st = m.1.1 ∧ y st = m.1.2 - row_height m.2.

(** The state after the block that ends with the row marked [m]. *)
Definition at_block_end (st : rstate) (m : mark) : Prop :=
  page st = m.1.1 ∧ y st = m.1.2 - row_height m.2 - gap_after m.2 Primary.

(** A row that never was: the first row of the sheet is placed as if it
    followed a primary row one block above the top. *)
Definition above_top : mark := (0%nat, top_y + 8 + normal_gap, Primary).

(** From page [pg] the calls [o] are those of their placements, and they
    end on page [pg']. *)
Definition canonical (title : string) (pg : nat) (o : list op) (pg' : nat) : Prop :=
  o = ops_of title pg (placements o) ∧ pg' = final pg (page_indices o).

Definition block_ids (bs : list block) : list Z := concat (members <$> bs).

(** The workout with every repeated identifier of its list dropped. *)
Definition without_repeats (w : workout) : workout :=
  {| w_id := w_id w; w_name := w_name w;
     w_exercises := first_occurrences ∅ (w_exercises w);
     w_paired_sets := w_paired_sets w |}.

(** ** Sample data *)

Definition plain_exercise : exercise :=
  {| ex_name := Some "Squat"; ex_sets := Some 3; ex_reps := Some [8; 12];
     ex_comment := None; ex_rest := None |}.

(** A table with the identifiers [1 .. n]. *)
Definition table (n : nat) : gmap Z exercise :=
  list_to_map (map (λ i, (Z.of_nat i, plain_exercise)) (seq 1 n)).

Definition sheet (exercises : list Z) (paired_sets : list (list pyval)) : workout :=
  {| w_id := Some 1; w_name := Some "Legs"; w_exercises := exercises;
     w_paired_sets := paired_sets |}.

(** The calls of a run, none if it raises. *)
Definition calls (r : result (list op)) : list op :=
  match r with
  | Ok o => o
  | Raise _ => []
  end.

(** Twenty exercises, none paired: the sheet runs over two pages. *)
Definition singles : workout := sheet (map Z.of_nat (seq 1 20)) [].

(** Exercise 2 paired with 5 and with 4. *)
Definition supersets : workout :=
  sheet [1; 2; 3; 4; 5] [[PyInt 2; PyInt 5]; [PyInt 2; PyInt 4]].

(** The scenario of four exercises with the pair (2, 4). *)
Definition four_with_pair : workout := sheet [1; 2; 3; 4] [[PyInt 2; PyInt 4]].

(** A list that names 1 and 2 twice. *)
Definition repeats : workout := sheet [1; 2; 2; 1; 3] [[PyInt 1; PyInt 2]].

(** * The rest of the sheet renderer and its callers *)

(** ** [sanitize] *)

(** A character of the class [[A-Za-z0-9_\-]].  Strings are sequences of
    bytes; in UTF-8 every byte of a character outside ASCII is outside
    the class, and a run of such characters is a run of such bytes. *)
Definition safe_char (c : ascii) : bool :=
  let n := nat_of_ascii c in
  ((65 <=? n) && (n <=? 90) || (97 <=? n) && (n <=? 122)
   || (48 <=? n) && (n <=? 57) || (n =? 95) || (n =? 45))%nat.

(** [re.sub(r"[^A-Za-z0-9_\-]+", "_", s)]: every maximal run of characters
    outside the class becomes one underscore.  [in_run] tells that the
    character before was part of such a run. *)
Fixpoint sub_unsafe_runs (in_run : bool) (l : list ascii) : list ascii :=
  match l with
  | [] => []
  | c :: l' =>
      if safe_char c then c :: sub_unsafe_runs false l'
      else if in_run then sub_unsafe_runs true l'
      else "_"%char :: sub_unsafe_runs true l'
  end.

Fixpoint lstrip_char (ch : ascii) (l : list ascii) : list ascii :=
  match l with
  | [] => []
  | c :: l' => if decide (c = ch) then lstrip_char ch l' else l
  end.

(** [.strip("_")] *)
Definition strip_char (ch : ascii) (l : list ascii) : list ascii :=
  rev (lstrip_char ch (rev (lstrip_char ch l))).

Definition sanitize_chars (l : list ascii) : list ascii :=
  strip_char "_" (sub_unsafe_runs false l).

Definition sanitize (s : string) : string :=
  string_of_list_ascii (sanitize_chars (list_ascii_of_string s)).

(** ** Canvas calls *)

(** Coordinates of the canvas calls are in half millimetres, so that the
    [1.5 * mm] of [draw_boxes] is exact; font sizes are in points. *)
Inductive call : Type :=
  | NewPage
  | SetFont (name : string) (size : Z)
  | DrawString (x y : Z) (text : string)
  | DrawCentredString (x y : Z) (text : string)
  | Rect (x y width height : Z).

(** [k * mm] *)
Definition mm (k : Z) : Z := 2 * k.

(** The defaults of [draw_boxes], which its only caller leaves in place. *)
Definition box_w : Z := mm 14.
Definition box_h : Z := mm 8.
Definition gap : Z := mm 4.

(** The body of [for i in range(sets)], from [start_x]. *)
Fixpoint draw_boxes_loop (n : nat) (start_x y : Z) : list call :=
  match n with
  | O => []
  | S n' =>
      [ Rect start_x (y - box_h) box_w box_h;
        SetFont "Helvetica" 6;
        DrawCentredString (start_x + box_w / 2) (y - box_h + 3) "reps";
        Rect (start_x + box_w) (y - box_h) box_w box_h;
        DrawCentredString (start_x + box_w + box_w / 2) (y - box_h + 3) "kg" ]
      ++ draw_boxes_loop n' (start_x + box_w + (box_w + gap)) y
  end.

Definition draw_boxes (x y sets : Z) : list call :=
  draw_boxes_loop (Z.to_nat sets) x y.

(** [s.replace(old, new)] for a non-empty [old]: after a match the next
    [skip] characters belong to it. *)
Fixpoint replace_go (old new : list ascii) (skip : nat) (l : list ascii) : list ascii :=
  match l with
  | [] => []
  | c :: l' =>
      match skip with
      | S k => replace_go old new k l'
      | O =>
          if decide (old `prefix_of` l)
          then new ++ replace_go old new (length old - 1) l'
          else c :: replace_go old new 0 l'
      end
  end.

Definition replace (old new s : string) : string :=
  string_of_list_ascii
    (replace_go (list_ascii_of_string old) (list_ascii_of_string new) 0
                (list_ascii_of_string s)).

(** The [meta_parts] of [_draw_exercise_entry]. *)
Definition meta_parts (reps : option string) (comment : string) (rest : option Z)
  : list string :=
  from_option (λ r, [replace "-99" "+" r +:+ " reps"]) [] reps
  ++ from_option (λ t, [pretty t +:+ "s rest"]) [] rest
  ++ (if decide (comment = "") then [] else [comment]).

Definition draw_exercise_entry (x_left y : Z) (ex_name : string) (sets : Z)
    (reps : option string) (comment : string) (rest : option Z) (indent : Z)
  : list call :=
  let indent_x := x_left + indent in
  [SetFont "Helvetica-Bold" 10; DrawString indent_x (y + mm 1) ex_name]
  ++ match meta_parts reps comment rest with
     | [] => []
     | parts =>
         [SetFont "Helvetica" 7; DrawString indent_x (y - mm 2) (join ", " parts)]
     end
  ++ draw_boxes (x_left + mm 50) (y + mm 6) sets.

(** The title of lines 81-83 and 112-114. *)
Definition draw_title (title : string) : list call :=
  [SetFont "Helvetica-Bold" 14; DrawString (mm margin) (mm page_h - mm margin) title;
   SetFont "Helvetica" 9].

(** The canvas calls behind a drawing call of the loop. *)
Definition calls_of_op (o : op) : list call :=
  match o with
  | ShowPage => [NewPage]
  | DrawTitle _ title => draw_title title
  | DrawEntry _ v e =>
      draw_exercise_entry (mm margin) (mm v) (en_name e) (en_sets e)
        (Some (en_reps e)) (en_comment e) (en_rest e) 0
  end.

Definition canvas_calls (o : list op) : list call := flat_map calls_of_op o.

(** The rectangles among canvas calls: left, bottom, width, height. *)
Definition rects (cs : list call) : list (Z * Z * Z * Z) :=
  flat_map (λ c, match c with Rect a b w h => [(a, b, w, h)] | _ => [] end) cs.

(** The [k]-th rectangle of a row of boxes that starts at [x] with its top
    at [y]: the "reps" and "kg" boxes of a set share an edge, sets are
    [gap] apart. *)
Definition box (x y : Z) (k : nat) : Z * Z * Z * Z :=
  (x + (box_w + box_w + gap) * Z.of_nat (k / 2) + box_w * Z.of_nat (k mod 2),
   y - box_h, box_w, box_h).

(** Width of the A4 page. *)
Definition page_w : Z := 210.

(** The text a reps range is drawn as: joined in [render_workout_pdf],
    rewritten in [_draw_exercise_entry]. *)
Definition reps_text (r : list Z) : string := replace "-99" "+" (join "-" (map pretty r)).

(** A decimal digit. *)
Definition digit (c : ascii) : bool :=
  let n := nat_of_ascii c in ((48 <=? n) && (n <=? 57))%nat.

(** What follows a leading ["99"], if the string has one. *)
Definition after_99 (s : string) : option string :=
  match s with
  | String c1 (String c2 tl) =>
      if decide (c1 = "9"%char ∧ c2 = "9"%char) then Some tl else None
  | _ => None
  end.

(** ** [main] of [workout_template.py] *)

(** [{int(e["id"]): e for e in exercises}] *)
Definition exercises_map_of (rows : list (Z * exercise)) : gmap Z exercise :=
  foldl (λ m r, <[r.1 := r.2]> m) ∅ rows.

(** [int(w.get("id", -1))] *)
Definition id_or_minus_one (w : workout) : Z := default (-1) (w_id w).

(** The loop of lines 168-171: the first workout with the identifier. *)
Fixpoint first_with_id (workout_id : Z) (workouts : list workout) : list workout :=
  match workouts with
  | [] => []
  | w :: rest =>
      if decide (id_or_minus_one w = workout_id) then [w]
      else first_with_id workout_id rest
  end.

Definition to_render (workout_id : option Z) (workouts : list workout) : list workout :=
  match workout_id with
  | Some i => first_with_id i workouts
  | None => workouts
  end.

(** [f"workout_{w.get('id','')}_{sanitize(name)}.pdf"] *)
Definition file_name (w : workout) : string :=
  let id_text := from_option pretty "" (w_id w) in
  let name := default ("workout_" +:+ id_text) (w_name w) in
  "workout_" +:+ id_text +:+ "_" +:+ sanitize name +:+ ".pdf".

(** ** The weights of a recorded set ([performance_input.py], lines 104-121) *)

(** [weights_list * n] *)
Definition repeat_list {A : Type} (l : list A) (n : nat) : list A :=
  concat (replicate n l).

(** The weights stored with [reps_list], from the weights the user typed
    ([weights_input] is not asked for when there are no reps). *)
Definition fit_weights {W : Type} (zero : W) (reps_list : list Z)
    (weights_input : list W) : list W :=
  let weights_list :=
    if (length reps_list =? 0)%nat then [] else weights_input in
  let weights_list :=
    if negb (length reps_list =? 0)%nat && (length weights_list =? 1)%nat
       && (1 <? length reps_list)%nat
    then repeat_list weights_list (length reps_list)
    else weights_list in
  if negb (length reps_list =? 0)%nat then
    if (length reps_list <? length weights_list)%nat then
      take (length reps_list) weights_list
    else if (length weights_list <? length reps_list)%nat then
      weights_list ++ replicate (length reps_list - length weights_list) zero
    else weights_list
  else weights_list.

(** ** The grid of subplots ([visualize.py], lines 79-89 and 148-151) *)

Definition cols : nat := 2.

(** [(n + cols - 1) // cols] *)
Definition grid_rows (n : nat) : nat := (n + cols - 1) / cols.

(** [(idx // cols, idx % cols)] *)
Definition cell (idx : nat) : nat * nat := (idx / cols, idx mod cols)%nat.

(** ** What [main] of [workout_template.py] does *)

(** A file written by [c.save()] or a line printed. *)
Inductive effect : Type :=
  | Written (name : string) (o : list op)
  | Printed (line : string).

(** The loop of lines 179-184, with the effects before an exception.
    [out_dir] is the output directory the script derives from its own
    location. *)
Fixpoint main_loop (out_dir : string) (exercises_map : gmap Z exercise)
    (ws : list workout) : list effect * option exn :=
  match ws with
  | [] => ([], None)
  | w :: rest =>
      match render_workout_pdf w exercises_map with
      | Raise e => ([], Some e)
      | Ok o =>
          let '(effects, raised) := main_loop out_dir exercises_map rest in
          (Written (file_name w) o
             :: Printed ("written " +:+ out_dir +:+ "/" +:+ file_name w)
             :: effects,
           raised)
      end
  end.

Definition main (out_dir : string) (workout_id : option Z)
    (exercise_rows : list (Z * exercise)) (workouts : list workout)
  : list effect * option exn :=
  let exercises_map := exercises_map_of exercise_rows in
  match to_render workout_id workouts with
  | [] => ([Printed "No workouts to render."], None)
  | ws => main_loop out_dir exercises_map ws
  end.

(** The files among the effects, in the order they are written. *)
Definition written (effects : list effect) : list (string * list op) :=
  flat_map (λ f, match f with Written n o => [(n, o)] | Printed _ => [] end) effects.

(** * The cursor in binary64 *)

(** The source keeps the cursor [y] in a Python float and compares it with
    [margin + 30 * mm] as floats.  The definitions of this part follow
    lines 76-155 once more with the cursor in binary64, rounded to nearest
    as Python does; everything but the lengths is shared with the first
    part.  Lengths are in points, as [reportlab.lib.units] has them:
    [inch = 72.0], [cm = inch / 2.54], [mm = cm * 0.1], and
    [reportlab.lib.pagesizes] gives [A4 = (210 * mm, 297 * mm)].  A decimal
    literal stands for the nearest binary64 number, as in Python. *)
#[local] Set Warnings "-inexact-float".

Definition inch : float := 72%float.
Definition cm : float := (inch / 2.54)%float.
Definition mm64 : float := (cm * 0.1)%float.

Definition page_h64 : float := (297 * mm64)%float.
Definition margin64 : float := (12 * mm64)%float.
Definition normal_gap64 : float := (7 * mm64)%float.
Definition paired_gap64 : float := (1 * mm64)%float.

(** [page_h - margin - 10 * mm] *)
Definition top_y64 : float := (page_h64 - margin64 - 10 * mm64)%float.

(** [margin + 30 * mm] *)
Definition limit64 : float := (margin64 + 30 * mm64)%float.

Inductive op64 : Type :=
  | ShowPage64
  | DrawTitle64 (page : nat) (title : string)
  | DrawEntry64 (page : nat) (y : float) (e : entry).

Record rstate64 : Type := {
  page64 : nat;
  y64 : float;
  rendered64 : gset Z;
  reps64 : option string;
  partner_reps64 : option string
}.

Definition set_y64 (f : float → float) (st : rstate64) : rstate64 :=
  {| page64 := page64 st; y64 := f (y64 st); rendered64 := rendered64 st;
     reps64 := reps64 st; partner_reps64 := partner_reps64 st |}.

(** [if y < margin + 30 * mm: c.showPage(); ...; y = page_h - margin - 10 * mm] *)
Definition page_break64 (title : string) (pg : nat) (cursor : float)
  : list op64 * nat * float :=
  if (cursor <? margin64 + 30 * mm64)%float then
    ([ShowPage64; DrawTitle64 (S pg) title], S pg, top_y64)
  else
    ([], pg, cursor).

(** One iteration of [for partner_id in partners] (lines 126-149). *)
Definition render_partner64 (title : string) (exercises_map : gmap Z exercise)
    (partner_id : Z) (st : rstate64) : result (list op64 * rstate64) :=
  '(name, sets, comment, rest, preps) ←
     display_fields exercises_map partner_id (partner_reps64 st);
  let '(brk, pg, cursor) := page_break64 title (page64 st) (y64 st) in
  r ← read_local preps;
  Ok (brk ++ [DrawEntry64 pg cursor
                {| en_site := Partner; en_id := partner_id; en_name := name;
                   en_sets := sets; en_reps := r; en_comment := comment;
                   en_rest := rest |}],
      {| page64 := pg; y64 := (cursor - 7 * mm64)%float;
         rendered64 := {[partner_id]} ∪ rendered64 st;
         reps64 := reps64 st; partner_reps64 := preps |}).

Fixpoint render_partners64 (title : string) (exercises_map : gmap Z exercise)
    (partners : list Z) (st : rstate64) : result (list op64 * rstate64) :=
  match partners with
  | [] => Ok ([], st)
  | partner_id :: rest =>
      '(o1, st1) ← render_partner64 title exercises_map partner_id st;
      '(o2, st2) ← render_partners64 title exercises_map rest st1;
      Ok (o1 ++ o2, st2)
  end.

(** One iteration of [for ex_id in exercises] (lines 95-153). *)
Definition render_exercise64 (title : string) (exercises_map : gmap Z exercise)
    (exercises : list Z) (pairs_map : gmap Z (list Z))
    (ex_id : Z) (st : rstate64) : result (list op64 * rstate64) :=
  if decide (ex_id ∈ rendered64 st) then Ok ([], st)
  else
    '(name, sets, comment, rest, preps) ← display_fields exercises_map ex_id (reps64 st);
    let '(brk, pg, cursor) := page_break64 title (page64 st) (y64 st) in
    r ← read_local preps;
    let row := DrawEntry64 pg cursor
                 {| en_site := Primary; en_id := ex_id; en_name := name;
                    en_sets := sets; en_reps := r; en_comment := comment;
                    en_rest := rest |} in
    let st1 := {| page64 := pg; y64 := (cursor - 8 * mm64)%float;
                  rendered64 := {[ex_id]} ∪ rendered64 st;
                  reps64 := preps; partner_reps64 := partner_reps64 st |} in
    let partners := select_partners exercises pairs_map ex_id (rendered64 st1) in
    '(o2, st2) ←
       match partners with
       | [] => Ok ([], st1)
       | _ :: _ =>
           '(o, s) ← render_partners64 title exercises_map partners st1;
           Ok (o, set_y64 (λ v, v - paired_gap64)%float s)
       end;
    Ok (brk ++ row :: o2, set_y64 (λ v, v - normal_gap64)%float st2).

Fixpoint render_loop64 (title : string) (exercises_map : gmap Z exercise)
    (exercises : list Z) (pairs_map : gmap Z (list Z))
    (todo : list Z) (st : rstate64) : result (list op64 * rstate64) :=
  match todo with
  | [] => Ok ([], st)
  | ex_id :: rest =>
      '(o1, st1) ← render_exercise64 title exercises_map exercises pairs_map ex_id st;
      '(o2, st2) ← render_loop64 title exercises_map exercises pairs_map rest st1;
      Ok (o1 ++ o2, st2)
  end.

Definition initial_state64 : rstate64 :=
  {| page64 := 0; y64 := top_y64; rendered64 := ∅; reps64 := None;
     partner_reps64 := None |}.

(** [render_workout_pdf] with the cursor in binary64. *)
Definition render_workout_pdf64 (w : workout) (exercises_map : gmap Z exercise)
  : result (list op64) :=
  let title := title_of w in
  pairs_map ← find_pairs_map (w_paired_sets w);
  '(o, _) ← render_loop64 title exercises_map (w_exercises w) pairs_map
              (w_exercises w) initial_state64;
  Ok (DrawTitle64 0 title :: o).

(** A drawn row: the page it is on, its vertical position and the call. *)
Definition placements64 (o : list op64) : list (nat * float * entry) :=
  flat_map (λ c, match c with DrawEntry64 pg v e => [(pg, v, e)] | _ => [] end) o.

Definition page_indices64 (o : list op64) : list nat :=
  map (λ pl, pl.1.1) (placements64 o).

Definition title_pages64 (o : list op64) : list nat :=
  flat_map (λ c, match c with DrawTitle64 pg _ => [pg] | _ => [] end) o.

(** What a row takes off the cursor (lines 119 and 148). *)
Definition row_height64 (s : site) : float :=
  match s with
  | Primary => 8 * mm64
  | Partner => 7 * mm64
  end%float.

(** The cursor on reaching a row at site [next] after a row drawn at
    position [v] at site [s]: the subtractions of lines 119, 148, 151 and
    153, one after the other as the source makes them. *)
Definition arrival64 (v : float) (s next : site) : float :=
  match next, s with
  | Partner, _ => v - row_height64 s
  | Primary, Primary => v - row_height64 s - normal_gap64
  | Primary, Partner => v - row_height64 s - paired_gap64 - normal_gap64
  end%float.

(** The calls that realise a sequence of placements, from page [pg]. *)
Fixpoint ops_of64 (title : string) (pg : nat) (pls : list (nat * float * entry))
  : list op64 :=
  match pls with
  | [] => []
  | (p, v, e) :: pls' =>
      (if decide (p = pg) then [] else [ShowPage64; DrawTitle64 p title])
        ++ DrawEntry64 p v e :: ops_of64 title p pls'
  end.

(** The break test as the specification words it, on floats. *)
Definition spec_break_test64 (cursor entry_height bottom_margin threshold : float) : bool :=
  (cursor - entry_height <? bottom_margin + threshold)%float.

Definition calls64 (r : result (list op64)) : list op64 :=
  match r with
  | Ok o => o
  | Raise _ => []
  end.

(** Page, position and call site of a drawn row. *)
Definition mark64 : Type := nat * float * site.

Definition mark_of64 (pl : nat * float * entry) : mark64 :=
  (pl.1.1, pl.1.2, en_site pl.2).

Definition marks64 (o : list op64) : list mark64 := map mark_of64 (placements64 o).

(** A row reached on page [pg] with the cursor at [cursor] is placed as
    the test of lines 110 and 139 decides. *)
Definition placed64 (pg : nat) (cursor : float) (m : mark64) : Prop :=
  if (cursor <? limit64)%float then m.1.1 = S pg ∧ m.1.2 = top_y64
  else m.1.1 = pg ∧ m.1.2 = cursor.

Definition follows64 (m m' : mark64) : Prop :=
  placed64 m.1.1 (arrival64 m.1.2 m.2 m'.2) m'.

Fixpoint flow64 (m : mark64) (ms : list mark64) : Prop :=
  match ms with
  | [] => True
  | m' :: ms' => follows64 m m' ∧ flow64 m' ms'
  end.

(** The state right after the row marked [m] is drawn. *)
Definition at_row64 (st : rstate64) (m : mark64) : Prop :=
  page64 st = m.1.1 ∧ y64 st = arrival64 m.1.2 m.2 Partner.

(** The state after the block that ends with the row marked [m]. *)
Definition at_block_end64 (st : rstate64) (m : mark64) : Prop :=
  page64 st = m.1.1 ∧ y64 st = arrival64 m.1.2 m.2 Primary.

(** A row that never was: the first row of the sheet is placed as if it
    followed a primary row one block above the top. *)
Definition above_top64 : mark64 :=
  (0%nat, (top_y64 + 8 * mm64 + normal_gap64)%float, Primary).

Definition canonical64 (title : string) (pg : nat) (o : list op64) (pg' : nat) : Prop :=
  o = ops_of64 title pg (placements64 o) ∧ pg' = final pg (page_indices64 o).

(** The two runs, in exact lengths and in binary64, have drawn the same
    entries and hold the same local variables. *)
Definition same_locals (st : rstate) (st64 : rstate64) : Prop :=
  rendered st = rendered64 st64 ∧ reps st = reps64 st64 ∧
  partner_reps st = partner_reps64 st64.

(** The entries drawn, without page and position. *)
Definition entries (o : list op) : list entry := map snd (placements o).

Definition entries64 (o : list op64) : list entry := map snd (placements64 o).

(** Twenty exercises with three blocks of three and one of two: in exact
    lengths the last row is reached with the cursor at 42 mm. *)
Definition at_limit : workout :=
  sheet (map Z.of_nat (seq 1 20))
    [ [PyInt 5; PyInt 6]; [PyInt 5; PyInt 7]; [PyInt 12; PyInt 13];
      [PyInt 14; PyInt 15]; [PyInt 14; PyInt 16];
      [PyInt 17; PyInt 18]; [PyInt 17; PyInt 19] ].

Definition agree (r : result (list op * rstate)) (r64 : result (list op64 * rstate64))
  : Prop :=
  match r, r64 with
  | Ok (o, st), Ok (o64, st64) => entries o = entries64 o64 ∧ same_locals st st64
  | Raise e, Raise e64 => e = e64
  | _, _ => False
  end.

(** * Proofs *)

#[local] Set Warnings "-clear-no-such-hyp".

Ltac geometry := unfold normal_gap, paired_gap, top_y, page_h, margin in *.

(** ** Runs that do not raise *)

Lemma bind_Ok {A B} (r : result A) (k : A → result B) b :
  r ≫= k = Ok b ↔ ∃ a, r = Ok a ∧ k a = Ok b.
Proof.
  destruct r as [a|e]; simpl; split.
  - eauto.
  - by intros (a' & [= ->] & ?).
  - done.
  - by intros (a' & [=] & ?).
Qed.

Lemma bind_Ok_l {A B} (a : A) (k : A → result B) : Ok a ≫= k = k a.
Proof. reflexivity. Qed.

(** ** The adjacency map *)

Lemma py_any_false decl :
  py_any decl = false ↔ Forall (λ v, v = PyNone ∨ v = PyInt 0) decl.
Proof.
  unfold py_any. induction decl as [|v decl IH]; simpl.
  - split; [constructor | done].
  - assert (truthy v = false ↔ v = PyNone ∨ v = PyInt 0) as Hv.
    { destruct v as [|n]; simpl; [naive_solver|].
      rewrite negb_false_iff, Z.eqb_eq. naive_solver. }
    rewrite orb_false_iff, Forall_cons. tauto.
Qed.

Lemma skip_test decl :
  negb (py_any decl) || (length decl <? 2)%nat = true ↔ skipped decl.
Proof.
  unfold skipped. rewrite orb_true_iff, negb_true_iff, py_any_false, Nat.ltb_lt.
  tauto.
Qed.

Lemma find_pairs_loop_cons decl rest pairs :
  find_pairs_loop (decl :: rest) pairs =
  if negb (py_any decl) || (length decl <? 2)%nat then find_pairs_loop rest pairs
  else
    v0 ← py_index decl 0; a ← py_int v0; v1 ← py_index decl 1; b ← py_int v1;
    find_pairs_loop rest (setdefault_append b a (setdefault_append a b pairs)).
Proof. reflexivity. Qed.

Lemma find_pairs_loop_skip decl rest pairs :
  skipped decl →
  find_pairs_loop (decl :: rest) pairs = find_pairs_loop rest pairs.
Proof. intros H%skip_test. by rewrite find_pairs_loop_cons, H. Qed.

Lemma find_pairs_loop_declares decl a b rest pairs :
  declares decl a b →
  find_pairs_loop (decl :: rest) pairs =
  find_pairs_loop rest (setdefault_append b a (setdefault_append a b pairs)).
Proof.
  intros [[tl ->] Hns]. rewrite find_pairs_loop_cons.
  destruct (negb _ || _) eqn:E; [|done].
  by apply skip_test in E.
Qed.

Lemma find_pairs_loop_app l1 l2 pairs :
  find_pairs_loop (l1 ++ l2) pairs = find_pairs_loop l1 pairs ≫= find_pairs_loop l2.
Proof.
  revert pairs. induction l1 as [|decl l1 IH]; intros pairs; [done|].
  rewrite <- app_comm_cons, !find_pairs_loop_cons. destruct (negb _ || _); [apply IH|].
  destruct (py_index decl 0) as [v0|]; [|done]. simpl.
  destruct (py_int v0) as [a|]; [|done]. simpl.
  destruct (py_index decl 1) as [v1|]; [|done]. simpl.
  destruct (py_int v1) as [b|]; [|done]. simpl. apply IH.
Qed.

Lemma partners_of_setdefault_append a b pairs k :
  partners_of (setdefault_append a b pairs) k =
  if decide (k = a) then partners_of pairs a ++ [b] else partners_of pairs k.
Proof.
  unfold partners_of, setdefault_append. case_decide as Hk.
  - subst. by rewrite lookup_insert_eq.
  - by rewrite lookup_insert_ne.
Qed.

Lemma dom_setdefault_append a b (pairs : gmap Z (list Z)) :
  dom (setdefault_append a b pairs) = {[a]} ∪ dom pairs.
Proof. unfold setdefault_append. apply dom_insert_L. Qed.

(** Membership in the partner lists after one accepted declaration. *)
Lemma elem_of_partners_step a b pairs k p :
  p ∈ partners_of (setdefault_append b a (setdefault_append a b pairs)) k ↔
  p ∈ partners_of pairs k ∨ (k = a ∧ p = b) ∨ (k = b ∧ p = a).
Proof.
  rewrite !partners_of_setdefault_append.
  repeat case_decide; subst; rewrite ?elem_of_app, ?list_elem_of_singleton;
    naive_solver.
Qed.

Lemma symmetric_step a b pairs :
  symmetric pairs → symmetric (setdefault_append b a (setdefault_append a b pairs)).
Proof.
  intros Hs x z. rewrite !elem_of_partners_step, (Hs x z). naive_solver.
Qed.

(** An invariant of the dictionary kept by every accepted declaration holds
    of the result. *)
Lemma find_pairs_loop_inv (P : gmap Z (list Z) → Prop) paired_sets pairs m :
  (∀ a b q, P q → P (setdefault_append b a (setdefault_append a b q))) →
  P pairs → find_pairs_loop paired_sets pairs = Ok m → P m.
Proof.
  intros Hstep. revert pairs.
  induction paired_sets as [|decl rest IH]; intros pairs HP.
  - by intros [= <-].
  - rewrite find_pairs_loop_cons. destruct (negb _ || _); [by apply IH|].
    destruct (py_index decl 0) as [v0|]; [|done]. simpl.
    destruct (py_int v0) as [a|]; [|done]. simpl.
    destruct (py_index decl 1) as [v1|]; [|done]. simpl.
    destruct (py_int v1) as [b|]; [|done]. simpl.
    apply IH. by apply Hstep.
Qed.

Lemma find_pairs_map_symmetric paired_sets m :
  find_pairs_map paired_sets = Ok m → symmetric m.
Proof.
  apply (find_pairs_loop_inv symmetric).
  - intros a b q. apply symmetric_step.
  - intros a b. unfold partners_of. rewrite !lookup_empty. simpl.
    by rewrite !elem_of_nil.
Qed.

(** A run that does not raise splits at every declaration. *)
Lemma find_pairs_loop_split l1 decl l2 pairs m :
  find_pairs_loop (l1 ++ decl :: l2) pairs = Ok m →
  ∃ m1 m2, find_pairs_loop l1 pairs = Ok m1 ∧
           find_pairs_loop [decl] m1 = Ok m2 ∧
           find_pairs_loop l2 m2 = Ok m.
Proof.
  rewrite find_pairs_loop_app. intros (m1 & H1 & H2)%bind_Ok.
  change (decl :: l2) with ([decl] ++ l2) in H2.
  rewrite find_pairs_loop_app in H2. apply bind_Ok in H2 as (m2 & H2 & H3).
  eauto.
Qed.

Lemma find_pairs_loop_mono paired_sets pairs m k p :
  find_pairs_loop paired_sets pairs = Ok m →
  p ∈ partners_of pairs k → p ∈ partners_of m k.
Proof.
  intros Hrun Hin. revert Hrun.
  apply (find_pairs_loop_inv (λ q, p ∈ partners_of q k)); [|done].
  intros a b q Hq. apply elem_of_partners_step. by left.
Qed.

Lemma find_pairs_loop_declared paired_sets decl a b pairs m :
  decl ∈ paired_sets → declares decl a b →
  find_pairs_loop paired_sets pairs = Ok m →
  b ∈ partners_of m a ∧ a ∈ partners_of m b.
Proof.
  intros (l1 & l2 & ->)%list_elem_of_split Hd (m1 & m2 & _ & H2 & H3)%find_pairs_loop_split.
  rewrite (find_pairs_loop_declares _ a b) in H2 by done. injection H2 as <-.
  split; eapply find_pairs_loop_mono; try done; apply elem_of_partners_step; naive_solver.
Qed.

(** ** White space *)

(** [strip] removes white space of one, two and three bytes at both ends:
    U+00A0, a blank and U+2003 in front of ["x"], U+3000 and a line feed
    behind it. *)
Lemma strip_unicode_white_space :
  strip (string_of_list_ascii
           (map ascii_of_nat [194; 160; 32; 226; 128; 131; 120; 227; 128; 128; 10]%nat))
  = "x" ∧
  strip " a b " = "a b" ∧ strip "" = "".
Proof. repeat split; by vm_compute. Qed.

(** ** Views of a sequence of calls *)

Lemma placements_app o1 o2 : placements (o1 ++ o2) = placements o1 ++ placements o2.
Proof. apply flat_map_app. Qed.

Lemma rows_app o1 o2 : rows (o1 ++ o2) = rows o1 ++ rows o2.
Proof. unfold rows. by rewrite placements_app, map_app. Qed.

Lemma marks_app o1 o2 : marks (o1 ++ o2) = marks o1 ++ marks o2.
Proof. unfold marks. by rewrite placements_app, map_app. Qed.

Lemma page_indices_app o1 o2 : page_indices (o1 ++ o2) = page_indices o1 ++ page_indices o2.
Proof. unfold page_indices. by rewrite placements_app, map_app. Qed.

Lemma rendered_ids_rows o : rendered_ids o = map snd (rows o).
Proof. unfold rendered_ids, rows. by rewrite map_map. Qed.

Lemma sites_rows o : map (λ m : mark, m.2) (marks o) = map fst (rows o).
Proof. unfold marks, rows. by rewrite !map_map. Qed.

Lemma page_indices_marks o : page_indices o = map (λ m : mark, m.1.1) (marks o).
Proof. unfold page_indices, marks. by rewrite map_map. Qed.

Lemma final_app {A} (d : A) l1 l2 : final d (l1 ++ l2) = final (final d l1) l2.
Proof. apply foldl_app. Qed.

Lemma final_map {A B} (f : A → B) d l : f (final d l) = final (f d) (map f l).
Proof. revert d. induction l as [|a l IH]; intros d; [done|]. apply IH. Qed.

(** ** The page break *)

Lemma page_break_spec title pg cursor :
  page_break title pg cursor =
  if decide (cursor < margin + 30)
  then ([ShowPage; DrawTitle (S pg) title], S pg, top_y)
  else ([], pg, cursor).
Proof.
  unfold page_break. case_decide as H.
  - by apply Z.ltb_lt in H as ->.
  - by apply Z.ltb_nlt in H as ->.
Qed.

Lemma placements_break_entry title pg0 c0 brk pg cursor e :
  page_break title pg0 c0 = (brk, pg, cursor) →
  placements (brk ++ [DrawEntry pg cursor e]) = [(pg, cursor, e)].
Proof.
  rewrite page_break_spec. intros Hb. by case_decide; inversion Hb; subst.
Qed.

Lemma rows_break_entry title pg0 c0 brk pg cursor e :
  page_break title pg0 c0 = (brk, pg, cursor) →
  rows (brk ++ [DrawEntry pg cursor e]) = [(en_site e, en_id e)].
Proof.
  intros Hb. unfold rows. by rewrite (placements_break_entry _ _ _ _ _ _ _ Hb).
Qed.

Lemma marks_break_entry title pg0 c0 brk pg cursor e :
  page_break title pg0 c0 = (brk, pg, cursor) →
  marks (brk ++ [DrawEntry pg cursor e]) = [(pg, cursor, en_site e)].
Proof.
  intros Hb. unfold marks. by rewrite (placements_break_entry _ _ _ _ _ _ _ Hb).
Qed.

Lemma page_break_follows title m s brk pg cursor c :
  c = arrival m s →
  page_break title m.1.1 c = (brk, pg, cursor) →
  follows m (pg, cursor, s).
Proof.
  intros -> Hb. rewrite page_break_spec in Hb. unfold follows. simpl.
  case_decide; inversion Hb; subst; split; intros; try done; lia.
Qed.

Lemma canonical_nil title pg : canonical title pg [] pg.
Proof. by split. Qed.

Lemma ops_of_app title pg l1 l2 :
  ops_of title pg (l1 ++ l2) =
  ops_of title pg l1 ++ ops_of title (final pg (map (λ pl, pl.1.1) l1)) l2.
Proof.
  revert pg. induction l1 as [|[[p v] e] l1 IH]; intros pg; [done|].
  simpl. rewrite IH. by rewrite <- app_assoc.
Qed.

Lemma canonical_app title pg o1 pg1 o2 pg2 :
  canonical title pg o1 pg1 → canonical title pg1 o2 pg2 →
  canonical title pg (o1 ++ o2) pg2.
Proof.
  intros [H1 ->] [H2 ->]. split.
  - rewrite placements_app, ops_of_app. unfold page_indices in H2.
    by rewrite <- H1, <- H2.
  - by rewrite page_indices_app, final_app.
Qed.

Lemma canonical_break_entry title pg0 c0 brk pg cursor e :
  page_break title pg0 c0 = (brk, pg, cursor) →
  canonical title pg0 (brk ++ [DrawEntry pg cursor e]) pg.
Proof.
  rewrite page_break_spec. intros Hb. case_decide; inversion Hb; subst; split; simpl.
  - rewrite decide_False by lia. done.
  - done.
  - by rewrite decide_True.
  - done.
Qed.

(** ** Sequences of marks *)

Lemma flow_app m l1 l2 : flow m (l1 ++ l2) ↔ flow m l1 ∧ flow (final m l1) l2.
Proof.
  revert m. induction l1 as [|m1 l1 IH]; intros m; simpl; [tauto|].
  rewrite IH. unfold final. simpl. tauto.
Qed.

Lemma final_partner (m : mark) ms :
  Forall (λ m', m'.2 = Partner) ms → ms ≠ [] → (final m ms).2 = Partner.
Proof.
  revert m. induction ms as [|m1 ms IH]; intros m Hall Hne; [done|].
  apply Forall_cons in Hall as [H1 Hall]. unfold final. simpl.
  destruct ms as [|m2 ms]; [done|]. by apply IH.
Qed.

Lemma follows_page m m' : follows m m' → m'.1.1 = m.1.1 ∨ m'.1.1 = S m.1.1.
Proof.
  intros [Hb Hn]. destruct (decide (arrival m m'.2 < margin + 30)) as [Hc|Hc].
  - right. by apply Hb.
  - left. apply Hn. lia.
Qed.

Lemma follows_above_top m :
  m.2 = Primary → follows above_top m → m.1 = (0%nat, top_y).
Proof.
  unfold follows, arrival, above_top. destruct m as [[pg v] s]. simpl.
  intros -> [_ H]. simpl in H. geometry.
  destruct H as [-> ->]; [lia|]. reflexivity.
Qed.

Lemma flow_lookup m ms i m1 m2 :
  flow m ms → (m :: ms) !! i = Some m1 → ms !! i = Some m2 → follows m1 m2.
Proof.
  revert m i. induction ms as [|m' ms IH]; intros m i Hflow H1 H2; [done|].
  destruct Hflow as [Hf Hfl]. destruct i as [|i]; simpl in *.
  - by injection H1 as <-; injection H2 as <-.
  - by eapply IH.
Qed.

Lemma flow_pages m ms :
  flow m ms → StronglySorted le (m.1.1 :: map (λ m', m'.1.1) ms).
Proof.
  revert m. induction ms as [|m' ms IH]; intros m.
  - intros _. repeat constructor.
  - intros [Hfo Hfl]. apply IH in Hfl.
    assert (m.1.1 ≤ m'.1.1)%nat as Hle by (apply follows_page in Hfo; lia).
    simpl. constructor; [done|]. constructor; [done|].
    apply StronglySorted_cons in Hfl as [Hall _].
    eapply Forall_impl; [done|]. simpl. intros. lia.
Qed.

Lemma flow_final_ge m ms : flow m ms → (m.1.1 ≤ (final m ms).1.1)%nat.
Proof.
  revert m. induction ms as [|m' ms IH]; intros m; [done|].
  intros [Hfo Hfl]. apply IH in Hfl. apply follows_page in Hfo.
  change (final m (m' :: ms)) with (final m' ms). lia.
Qed.

Lemma StronglySorted_le_lookup (l : list nat) i j p q :
  StronglySorted le l → (i ≤ j)%nat → l !! i = Some p → l !! j = Some q → (p ≤ q)%nat.
Proof.
  intros Hs. revert i j.
  induction Hs as [|a l Hs IH Hall]; intros i j Hij Hi Hj; [done|].
  destruct i as [|i], j as [|j]; simpl in *; try lia.
  - injection Hi as <-. injection Hj as <-. lia.
  - injection Hi as <-. eapply Forall_forall in Hall; [done|].
    by eapply list_elem_of_lookup_2.
  - apply (IH i j); [lia|done..].
Qed.

(** ** Blocks and rows *)

Lemma leading_partners_block ps (rs : list (site * Z)) :
  match rs with (Partner, _) :: _ => False | _ => True end →
  leading_partners (map (λ p, (Partner, p)) ps ++ rs) = ps.
Proof.
  intros Hrs. induction ps as [|p ps IH]; simpl; [|by rewrite IH].
  by destruct rs as [|[[] ?] ?].
Qed.

Lemma blocks_of_partners ps rs :
  blocks_of (map (λ p, (Partner, p)) ps ++ rs) = blocks_of rs.
Proof. induction ps as [|p ps IH]; simpl; done. Qed.

Lemma blocks_of_concat bs : blocks_of (concat (block_rows <$> bs)) = bs.
Proof.
  induction bs as [|[x ps] bs IH]; [done|].
  rewrite fmap_cons, concat_cons. unfold block_rows at 1.
  cbn [primary partners app blocks_of].
  rewrite leading_partners_block, blocks_of_partners, IH; [done|].
  by destruct bs.
Qed.

Lemma concat_block_rows_head bs :
  match map fst (concat (block_rows <$> bs)) with
  | s :: _ => s = Primary
  | [] => True
  end.
Proof. by destruct bs. Qed.

Lemma ids_concat_block_rows bs :
  map snd (concat (block_rows <$> bs)) = block_ids bs.
Proof.
  unfold block_ids. induction bs as [|[x ps] bs IH]; [done|].
  rewrite !fmap_cons, !concat_cons, map_app, IH. f_equal.
  unfold block_rows, members. simpl. f_equal. rewrite map_map. simpl.
  by rewrite map_id.
Qed.

(** ** The sequencer *)

Lemma first_index_app_notin x l1 l2 :
  x ∉ l1 → first_index x (l1 ++ l2) = (length l1 + first_index x l2)%nat.
Proof.
  induction l1 as [|a l1 IH]; [done|]. intros [Hne Hx]%not_elem_of_cons.
  simpl. rewrite decide_False by done. by rewrite IH.
Qed.

Lemma first_index_here x l1 l2 :
  x ∉ l1 → first_index x (l1 ++ x :: l2) = length l1.
Proof.
  intros Hx. rewrite first_index_app_notin by done. simpl.
  rewrite decide_True by done. lia.
Qed.

Lemma first_index_later x a l1 l2 :
  x ∉ l1 → x ≠ a → (length l1 < first_index x (l1 ++ a :: l2))%nat.
Proof.
  intros Hx Hne. rewrite first_index_app_notin by done. simpl.
  rewrite decide_False by done. lia.
Qed.

Lemma first_member_index_primary exs b :
  (∀ p, p ∈ partners b → (first_index (primary b) exs < first_index p exs)%nat) →
  first_member_index exs b = first_index (primary b) exs.
Proof.
  unfold first_member_index. generalize (first_index (primary b) exs) as k.
  induction (partners b) as [|p ps IH]; intros k Hk; [done|].
  simpl. rewrite IH by set_solver.
  assert (k < first_index p exs)%nat by set_solver. lia.
Qed.

Lemma sequence_loop_partners exs pm todo placed :
  Forall (λ b, partners b `sublist_of` partners_of pm (primary b))
         (sequence_loop exs pm todo placed).
Proof.
  revert placed. induction todo as [|x todo IH]; intros placed; simpl; [done|].
  case_decide; [done|]. constructor; [|done]. simpl. apply sublist_filter.
Qed.

(** With [seen] walked and all of it placed, the blocks still to come open
    at later and later first occurrences, and every partner first occurs
    after its primary. *)
Lemma sequence_loop_order exs pm seen todo placed :
  exs = seen ++ todo → (∀ d, d ∈ seen → d ∈ placed) →
  let key := λ b, first_index (primary b) exs in
  let bs := sequence_loop exs pm todo placed in
  Forall (λ b, ∀ p, p ∈ partners b → (key b < first_index p exs)%nat) bs ∧
  Forall (λ b, (length seen ≤ key b)%nat) bs ∧
  StronglySorted lt (key <$> bs).
Proof.
  intros Hexs Hseen key. revert seen placed Hexs Hseen.
  induction todo as [|x todo IH]; intros seen placed Hexs Hseen; simpl.
  { repeat split; constructor. }
  assert (exs = (seen ++ [x]) ++ todo) as Hexs' by by rewrite <- app_assoc.
  case_decide as Hx.
  - destruct (IH (seen ++ [x]) placed Hexs') as (H1 & H2 & H3).
    { intros d [?|Hd%list_elem_of_singleton]%elem_of_app; subst; auto. }
    split; [done|]. split; [|done].
    eapply Forall_impl; [done|]. simpl. intros b. rewrite length_app. simpl. lia.
  - set (ps := filter _ _).
    destruct (IH (seen ++ [x]) (list_to_set ps ∪ ({[x]} ∪ placed)) Hexs')
      as (H1 & H2 & H3).
    { intros d [?|Hd%list_elem_of_singleton]%elem_of_app; set_solver. }
    assert (x ∉ seen) as Hxs by (intros ?; auto).
    assert (key {| primary := x; partners := ps |} = length seen) as Hk.
    { unfold key. simpl. rewrite Hexs. by apply first_index_here. }
    split; [|split].
    + constructor; [|done]. rewrite Hk. simpl. intros p Hp.
      apply list_elem_of_filter in Hp as [[_ Hp] _].
      rewrite Hexs. apply first_index_later; set_solver.
    + constructor; [lia|]. eapply Forall_impl; [done|]. simpl.
      intros b. rewrite length_app. simpl. lia.
    + rewrite fmap_cons. constructor; [done|]. rewrite Hk.
      apply Forall_fmap. eapply Forall_impl; [done|]. simpl.
      intros b. rewrite length_app. simpl. unfold key. lia.
Qed.

(** The identifiers of the blocks: within the workout and not placed
    before, all of the list that was not placed, and none twice when no
    partner list repeats an identifier. *)
Lemma sequence_loop_ids exs pm todo placed :
  (∀ x, x ∈ todo → x ∈ exs) →
  let ids := block_ids (sequence_loop exs pm todo placed) in
  (∀ x, x ∈ ids → x ∈ exs ∧ x ∉ placed) ∧
  (∀ x, x ∈ todo → x ∉ placed → x ∈ ids) ∧
  ((∀ k, NoDup (partners_of pm k)) → NoDup ids).
Proof.
  revert placed. induction todo as [|x todo IH]; intros placed Hsub; simpl.
  { split; [|split]; [by intros x ?%elem_of_nil|by intros x ?%elem_of_nil|].
    intros _. constructor. }
  assert (∀ z, z ∈ todo → z ∈ exs) as Hsub' by (intros; apply Hsub; by right).
  case_decide as Hx.
  - destruct (IH placed Hsub') as (H1 & H2 & H3). split; [done|]. split; [|done].
    intros z [->|Hz]%elem_of_cons Hnp; [done|]. by apply H2.
  - set (ps := filter _ _).
    destruct (IH (list_to_set ps ∪ ({[x]} ∪ placed)) Hsub') as (H1 & H2 & H3).
    unfold block_ids. rewrite fmap_cons, concat_cons. unfold members at 1. simpl.
    fold (block_ids (sequence_loop exs pm todo (list_to_set ps ∪ ({[x]} ∪ placed)))).
    set (tl := block_ids _) in *.
    assert (∀ p, p ∈ ps → p ∈ exs ∧ p ≠ x ∧ p ∉ placed) as Hps.
    { intros p [[? ?] _]%list_elem_of_filter. set_solver. }
    split; [|split].
    + intros z [->|[Hz|Hz]%elem_of_app]%elem_of_cons.
      * split; [|done]. apply Hsub. by left.
      * by destruct (Hps z Hz) as (? & _ & ?).
      * destruct (H1 z Hz) as [? Hn]. split; [done|]. set_solver.
    + intros z Hz Hnp. destruct (decide (z = x)) as [->|Hne]; [by left|].
      right. apply elem_of_app. destruct (decide (z ∈ ps)); [by left|right].
      apply H2; [|set_solver]. by apply elem_of_cons in Hz as [?|?].
    + intros Hnd. apply NoDup_cons. split.
      * intros [Hz|Hz]%elem_of_app; [by destruct (Hps x Hz) as (_ & ? & _)|].
        destruct (H1 x Hz) as [_ Hn]. set_solver.
      * apply NoDup_app. split; [by apply NoDup_filter|]. split; [|by apply H3].
        intros z Hz Hz'. destruct (H1 z Hz') as [_ Hn]. set_solver.
Qed.

Lemma elem_of_first_occurrences seen l x :
  x ∈ first_occurrences seen l ↔ x ∈ l ∧ x ∉ seen.
Proof.
  revert seen. induction l as [|a l IH]; intros seen; simpl.
  - rewrite elem_of_nil. tauto.
  - case_decide as Ha.
    + rewrite IH, elem_of_cons. split; [tauto|].
      intros [[->|?] ?]; [done|tauto].
    + rewrite !elem_of_cons, IH, not_elem_of_union, elem_of_singleton.
      destruct (decide (x = a)) as [->|?]; tauto.
Qed.

(** ** One run of the loops *)

Section Run.
Context (title : string) (em : gmap Z exercise).
Context (exs : list Z) (pm : gmap Z (list Z)).

(** *** What a step that does not raise has done *)

Lemma render_partner_Ok p st o st' :
  render_partner title em p st = Ok (o, st') →
  ∃ e brk pg cursor,
    page_break title (page st) (y st) = (brk, pg, cursor) ∧
    en_site e = Partner ∧ en_id e = p ∧
    o = brk ++ [DrawEntry pg cursor e] ∧
    page st' = pg ∧ y st' = cursor - 7 ∧
    rendered st' = {[p]} ∪ rendered st ∧
    reps st' = reps st.
Proof.
  unfold render_partner. intros H.
  apply bind_Ok in H as ([[[[name sets] comment] rest] preps] & Hf & H).
  destruct (page_break title (page st) (y st)) as [[brk pg] cursor].
  apply bind_Ok in H as (r & Hr & [= <- <-]).
  by exists (Build_entry Partner p name sets r comment rest), brk, pg, cursor.
Qed.

Lemma render_partners_cons_Ok p ps st o st' :
  render_partners title em (p :: ps) st = Ok (o, st') →
  ∃ o1 st1 o2,
    render_partner title em p st = Ok (o1, st1) ∧
    render_partners title em ps st1 = Ok (o2, st') ∧
    o = o1 ++ o2.
Proof.
  simpl. intros ([o1 st1] & H1 & H)%bind_Ok.
  apply bind_Ok in H as ([o2 st2] & H2 & [= <- <-]). by exists o1, st1, o2.
Qed.

Lemma render_exercise_skip x st :
  x ∈ rendered st →
  render_exercise title em exs pm x st = Ok ([], st).
Proof. intros H. unfold render_exercise. by rewrite decide_True. Qed.

Lemma render_exercise_Ok x st o st' :
  x ∉ rendered st →
  render_exercise title em exs pm x st = Ok (o, st') →
  ∃ e brk pg cursor st1 o2 st2,
    page_break title (page st) (y st) = (brk, pg, cursor) ∧
    en_site e = Primary ∧ en_id e = x ∧
    page st1 = pg ∧ y st1 = cursor - 8 ∧
    rendered st1 = {[x]} ∪ rendered st ∧
    partner_reps st1 = partner_reps st ∧
    render_partners title em (select_partners exs pm x (rendered st1)) st1
      = Ok (o2, st2) ∧
    o = brk ++ DrawEntry pg cursor e :: o2 ∧
    page st' = page st2 ∧
    y st' = y st2
            - match select_partners exs pm x (rendered st1) with
              | [] => 0
              | _ :: _ => paired_gap
              end
            - normal_gap ∧
    rendered st' = rendered st2.
Proof.
  intros Hx. unfold render_exercise. rewrite decide_False by done.
  intros H.
  apply bind_Ok in H as ([[[[name sets] comment] rest] preps] & Hf & H).
  destruct (page_break title (page st) (y st)) as [[brk pg] cursor].
  apply bind_Ok in H as (r & Hr & H).
  set (st1 := {| page := pg; y := cursor - 8; rendered := {[x]} ∪ rendered st;
                 reps := preps; partner_reps := partner_reps st |}) in *.
  apply bind_Ok in H as ([o2 st2] & H2 & [= <- <-]).
  exists (Build_entry Primary x name sets r comment rest), brk, pg, cursor, st1.
  change (rendered st1) with ({[x]} ∪ rendered st) in *.
  destruct (select_partners exs pm x ({[x]} ∪ rendered st)) as [|p ps] eqn:E.
  - injection H2 as <- <-. exists [], st1. simpl. repeat split; try done. lia.
  - apply bind_Ok in H2 as ([o3 st3] & H3 & [= <- <-]).
    exists o3, st3. simpl. repeat split; try done.
Qed.

Lemma render_loop_cons_Ok x todo st o st' :
  render_loop title em exs pm (x :: todo) st = Ok (o, st') →
  ∃ o1 st1 o2,
    render_exercise title em exs pm x st = Ok (o1, st1) ∧
    render_loop title em exs pm todo st1 = Ok (o2, st') ∧
    o = o1 ++ o2.
Proof.
  simpl. intros ([o1 st1] & H1 & H)%bind_Ok.
  apply bind_Ok in H as ([o2 st2] & H2 & [= <- <-]). by exists o1, st1, o2.
Qed.

(** *** The rows of a run are the blocks of the sequencer *)

Lemma render_partners_rows ps st o st' :
  render_partners title em ps st = Ok (o, st') →
  rows o = map (λ p, (Partner, p)) ps ∧
  rendered st' = list_to_set ps ∪ rendered st.
Proof.
  revert st o. induction ps as [|p ps IH]; intros st o H.
  - injection H as <- <-. split; [done|]. simpl. set_solver.
  - apply render_partners_cons_Ok in H as (o1 & st1 & o2 & H1 & H2 & ->).
    apply render_partner_Ok in H1
      as (e & brk & pg & cursor & Hb & Hs & Hi & -> & _ & _ & Hr & _).
    apply IH in H2 as [H2 ->]. rewrite rows_app, H2, Hr. split.
    + by rewrite (rows_break_entry _ _ _ _ _ _ _ Hb), Hs, Hi.
    + simpl. set_solver.
Qed.

Lemma render_exercise_rows x st o st' :
  x ∉ rendered st →
  render_exercise title em exs pm x st = Ok (o, st') →
  let ps := select_partners exs pm x ({[x]} ∪ rendered st) in
  rows o = block_rows {| primary := x; partners := ps |} ∧
  rendered st' = list_to_set ps ∪ ({[x]} ∪ rendered st).
Proof.
  intros Hx H. apply render_exercise_Ok in H
    as (e & brk & pg & cursor & st1 & o2 & st2 & Hb & Hs & Hi & _ & _ & Hr1 & _
        & H2 & -> & _ & _ & ->); [|done].
  rewrite Hr1 in H2. apply render_partners_rows in H2 as [H2 ->].
  rewrite Hr1. split; [|done].
  change (brk ++ DrawEntry pg cursor e :: o2) with (brk ++ [DrawEntry pg cursor e] ++ o2).
  by rewrite app_assoc, rows_app, H2, (rows_break_entry _ _ _ _ _ _ _ Hb), Hs, Hi.
Qed.

Lemma render_loop_rows todo st o st' :
  render_loop title em exs pm todo st = Ok (o, st') →
  rows o = concat (block_rows <$> sequence_loop exs pm todo (rendered st)).
Proof.
  revert st o. induction todo as [|x todo IH]; intros st o H.
  - by injection H as <- <-.
  - apply render_loop_cons_Ok in H as (o1 & st1 & o2 & H1 & H2 & ->).
    rewrite rows_app. simpl. destruct (decide (x ∈ rendered st)) as [Hx|Hx].
    + rewrite render_exercise_skip in H1 by done. injection H1 as <- <-.
      by apply IH.
    + apply render_exercise_rows in H1 as [-> Hr]; [|done].
      apply IH in H2 as ->. rewrite Hr. reflexivity.
Qed.

Lemma render_exercise_rendered x st o st' :
  render_exercise title em exs pm x st = Ok (o, st') →
  x ∈ rendered st' ∧ rendered st ⊆ rendered st'.
Proof.
  intros H. destruct (decide (x ∈ rendered st)) as [Hx|Hx].
  - rewrite render_exercise_skip in H by done. by injection H as <- <-.
  - apply render_exercise_rows in H as [_ ->]; [|done]. set_solver.
Qed.

(** *** The page flow of a run *)

Lemma render_partners_flow ps st o st' m :
  render_partners title em ps st = Ok (o, st') →
  at_row st m →
  flow m (marks o) ∧ at_row st' (final m (marks o)) ∧
  Forall (λ m', m'.2 = Partner) (marks o) ∧ length (marks o) = length ps.
Proof.
  revert st o m. induction ps as [|p ps IH]; intros st o m H [Hpg Hy].
  - injection H as <- <-. by repeat split.
  - apply render_partners_cons_Ok in H as (o1 & st1 & o2 & H1 & H2 & ->).
    apply render_partner_Ok in H1
      as (e & brk & pg & cursor & Hb & Hs & Hi & -> & Hpg1 & Hy1 & _ & _).
    rewrite marks_app, (marks_break_entry _ _ _ _ _ _ _ Hb), Hs.
    destruct (IH st1 o2 (pg, cursor, Partner) H2) as (Hf & Hat & Hall & Hlen).
    { split; simpl; done. }
    simpl. split; [split; [|done]|split; [done|split]].
    + rewrite Hpg in Hb.
      apply (page_break_follows title m Partner brk pg cursor (y st)); [|done].
      unfold arrival. simpl. lia.
    + by constructor.
    + by rewrite Hlen.
Qed.

Lemma render_exercise_flow x st o st' m :
  x ∉ rendered st →
  render_exercise title em exs pm x st = Ok (o, st') →
  at_block_end st m →
  flow m (marks o) ∧ at_block_end st' (final m (marks o)).
Proof.
  intros Hx H [Hpg Hy]. apply render_exercise_Ok in H
    as (e & brk & pg & cursor & st1 & o2 & st2 & Hb & Hs & Hi & Hpg1 & Hy1 & _ & _
        & H2 & -> & Hpg' & Hy' & _); [|done].
  change (brk ++ DrawEntry pg cursor e :: o2)
    with (brk ++ [DrawEntry pg cursor e] ++ o2).
  rewrite app_assoc, marks_app, (marks_break_entry _ _ _ _ _ _ _ Hb), Hs.
  destruct (render_partners_flow _ _ _ _ (pg, cursor, Primary) H2)
    as (Hf & [Hpg2 Hy2] & Hall & Hlen).
  { by split. }
  simpl. split; [split; [|done]|].
  - rewrite Hpg in Hb.
    apply (page_break_follows title m Primary brk pg cursor (y st)); [|done].
    unfold arrival. lia.
  - change (final m ((pg, cursor, Primary) :: marks o2))
      with (final (pg, cursor, Primary) (marks o2)).
    split; [congruence|]. rewrite Hy', Hy2.
    destruct (select_partners _ _ _ _) as [|p ps].
    + destruct (marks o2); [|done]. unfold final. simpl. geometry. lia.
    + rewrite final_partner; [simpl; lia|done|].
      by destruct (marks o2).
Qed.

Lemma render_loop_flow todo st o st' m :
  render_loop title em exs pm todo st = Ok (o, st') →
  at_block_end st m →
  flow m (marks o) ∧ at_block_end st' (final m (marks o)).
Proof.
  revert st o m. induction todo as [|x todo IH]; intros st o m H Hat.
  - by injection H as <- <-.
  - apply render_loop_cons_Ok in H as (o1 & st1 & o2 & H1 & H2 & ->).
    rewrite marks_app, flow_app, final_app.
    destruct (decide (x ∈ rendered st)) as [Hx|Hx].
    + rewrite render_exercise_skip in H1 by done. injection H1 as <- <-.
      destruct (IH _ _ _ H2 Hat). by split.
    + destruct (render_exercise_flow _ _ _ _ _ Hx H1 Hat) as [Hf1 Hat1].
      destruct (IH _ _ _ H2 Hat1). by split.
Qed.

Lemma render_loop_first_primary todo st o st' :
  render_loop title em exs pm todo st = Ok (o, st') →
  match marks o with
  | m :: _ => m.2 = Primary
  | [] => True
  end.
Proof.
  intros H%render_loop_rows.
  pose proof (concat_block_rows_head (sequence_loop exs pm todo (rendered st))) as Hh.
  rewrite <- H, <- sites_rows in Hh. by destruct (marks o).
Qed.

(** *** The calls of a run are those of its placements *)

Lemma render_partners_canonical ps st o st' :
  render_partners title em ps st = Ok (o, st') →
  canonical title (page st) o (page st').
Proof.
  revert st o. induction ps as [|p ps IH]; intros st o H.
  - injection H as <- <-. apply canonical_nil.
  - apply render_partners_cons_Ok in H as (o1 & st1 & o2 & H1 & H2 & ->).
    apply render_partner_Ok in H1
      as (e & brk & pg & cursor & Hb & _ & _ & -> & Hpg1 & _).
    eapply canonical_app; [by eapply canonical_break_entry|].
    rewrite <- Hpg1. by apply IH.
Qed.

Lemma render_exercise_canonical x st o st' :
  render_exercise title em exs pm x st = Ok (o, st') →
  canonical title (page st) o (page st').
Proof.
  intros H. destruct (decide (x ∈ rendered st)) as [Hx|Hx].
  { rewrite render_exercise_skip in H by done. injection H as <- <-.
    apply canonical_nil. }
  apply render_exercise_Ok in H
    as (e & brk & pg & cursor & st1 & o2 & st2 & Hb & _ & _ & Hpg1 & _ & _ & _
        & H2 & -> & -> & _); [|done].
  change (brk ++ DrawEntry pg cursor e :: o2)
    with (brk ++ [DrawEntry pg cursor e] ++ o2).
  rewrite app_assoc.
  eapply canonical_app; [by eapply canonical_break_entry|].
  rewrite <- Hpg1. by eapply render_partners_canonical.
Qed.

Lemma render_loop_canonical todo st o st' :
  render_loop title em exs pm todo st = Ok (o, st') →
  canonical title (page st) o (page st').
Proof.
  revert st o. induction todo as [|x todo IH]; intros st o H.
  - injection H as <- <-. apply canonical_nil.
  - apply render_loop_cons_Ok in H as (o1 & st1 & o2 & H1 & H2 & ->).
    eapply canonical_app; [by eapply render_exercise_canonical|by apply IH].
Qed.

(** *** Identifiers already drawn are passed over *)

Lemma render_loop_skip x todo st :
  x ∈ rendered st →
  render_loop title em exs pm (x :: todo) st = render_loop title em exs pm todo st.
Proof.
  intros Hx. simpl. rewrite render_exercise_skip by done. simpl.
  by destruct (render_loop title em exs pm todo st) as [[o2 st2]|].
Qed.

Lemma render_loop_first_occurrences seen todo st :
  seen ⊆ rendered st →
  render_loop title em exs pm todo st =
  render_loop title em exs pm (first_occurrences seen todo) st.
Proof.
  revert seen st. induction todo as [|x todo IH]; intros seen st Hseen; [done|].
  simpl first_occurrences. case_decide as Hx.
  - rewrite render_loop_skip by set_solver. by apply IH.
  - simpl. destruct (render_exercise title em exs pm x st) as [[o1 st1]|] eqn:E; [|done].
    simpl. apply render_exercise_rendered in E as [Hx1 Hsub].
    rewrite <- (IH ({[x]} ∪ seen) st1); [done|set_solver].
Qed.

(** *** Only membership in the exercise list matters *)

Lemma render_exercise_ext exs' x st :
  (∀ p, p ∈ exs ↔ p ∈ exs') →
  render_exercise title em exs pm x st = render_exercise title em exs' pm x st.
Proof.
  intros Hm. unfold render_exercise. case_decide; [done|].
  destruct (display_fields em x (reps st)) as [[[[[name sets] comment] rest] preps]|];
    [|done].
  simpl. destruct (page_break title (page st) (y st)) as [[brk pg] cursor].
  destruct (read_local preps) as [r|]; [|done].
  simpl. unfold select_partners.
  by rewrite (list_filter_iff _ (λ p, p ∈ exs' ∧ p ∉ {[x]} ∪ rendered st))
    by (intros p; by rewrite Hm).
Qed.

Lemma render_loop_ext exs' todo st :
  (∀ p, p ∈ exs ↔ p ∈ exs') →
  render_loop title em exs pm todo st = render_loop title em exs' pm todo st.
Proof.
  intros Hm. revert st. induction todo as [|x todo IH]; intros st; [done|].
  simpl. rewrite (render_exercise_ext exs') by done.
  destruct (render_exercise title em exs' pm x st) as [[o1 st1]|]; [|done].
  simpl. by rewrite IH.
Qed.

End Run.

(** ** Whole runs *)

Lemma render_workout_pdf_Ok w cat o :
  render_workout_pdf w cat = Ok o →
  ∃ pm o' st',
    find_pairs_map (w_paired_sets w) = Ok pm ∧
    render_loop (title_of w) cat (w_exercises w) pm (w_exercises w) initial_state
      = Ok (o', st') ∧
    o = DrawTitle 0 (title_of w) :: o'.
Proof.
  unfold render_workout_pdf. intros (pm & Hpm & H)%bind_Ok.
  apply bind_Ok in H as ([o' st'] & Hl & [= <-]). by exists pm, o', st'.
Qed.

Lemma render_workout_pdf_blocks w cat o :
  render_workout_pdf w cat = Ok o →
  ∃ pm, find_pairs_map (w_paired_sets w) = Ok pm ∧
        rows o = concat (block_rows <$> sequence (w_exercises w) pm).
Proof.
  intros (pm & o' & st' & Hpm & Hl & ->)%render_workout_pdf_Ok. exists pm.
  split; [done|]. by apply render_loop_rows in Hl.
Qed.

Lemma initial_state_at : at_block_end initial_state above_top.
Proof. split; simpl; [done|]. geometry. lia. Qed.

Lemma render_workout_pdf_flow w cat o :
  render_workout_pdf w cat = Ok o →
  ∃ o', o = DrawTitle 0 (title_of w) :: o' ∧
        flow above_top (marks o') ∧
        o' = ops_of (title_of w) 0 (placements o') ∧
        match marks o' with m :: _ => m.2 = Primary | [] => True end.
Proof.
  intros (pm & o' & st' & _ & Hl & ->)%render_workout_pdf_Ok. exists o'.
  pose proof (render_loop_canonical _ _ _ _ _ _ _ _ Hl) as [Hc _].
  pose proof (render_loop_first_primary _ _ _ _ _ _ _ _ Hl) as Hp.
  apply (render_loop_flow _ _ _ _ _ _ _ _ above_top) in Hl as [Hf _];
    [done|apply initial_state_at].
Qed.

Lemma render_partition w cat o :
  render_workout_pdf w cat = Ok o →
  ∃ pm, find_pairs_map (w_paired_sets w) = Ok pm ∧
        (∀ x, x ∈ rendered_ids o ↔ x ∈ w_exercises w) ∧
        ((∀ k, NoDup (partners_of pm k)) → NoDup (rendered_ids o)).
Proof.
  intros (pm & Hpm & Hrows)%render_workout_pdf_blocks. exists pm.
  split; [done|]. rewrite rendered_ids_rows, Hrows, ids_concat_block_rows.
  destruct (sequence_loop_ids (w_exercises w) pm (w_exercises w) ∅) as (H1 & H2 & H3);
    [done|].
  split; [|done]. intros x. split; [by intros [? _]%H1|].
  intros Hx. by apply H2.
Qed.

(** * The page flow in binary64 *)

(** The lengths of ReportLab, as Python prints them in hexadecimal:
    [mm] is 2.834645669291339 points, the page height 841.8897637795277,
    the top position 779.5275590551182 and the limit 119.05511811023624. *)
Lemma reportlab_lengths :
  mm64 = 0x1.6ad5ab56ad5acp+1%float ∧ page_h64 = 0x1.a4f1e3c78f1e5p+9%float ∧
  top_y64 = 0x1.85c3870e1c388p+9%float ∧ limit64 = 0x1.dc3870e1c3872p+6%float.
Proof. repeat split; by vm_compute. Qed.

Lemma placements64_app o1 o2 :
  placements64 (o1 ++ o2) = placements64 o1 ++ placements64 o2.
Proof. apply flat_map_app. Qed.

Lemma marks64_app o1 o2 : marks64 (o1 ++ o2) = marks64 o1 ++ marks64 o2.
Proof. unfold marks64. by rewrite placements64_app, map_app. Qed.

Lemma page_indices64_app o1 o2 :
  page_indices64 (o1 ++ o2) = page_indices64 o1 ++ page_indices64 o2.
Proof. unfold page_indices64. by rewrite placements64_app, map_app. Qed.

Lemma title_pages64_app o1 o2 :
  title_pages64 (o1 ++ o2) = title_pages64 o1 ++ title_pages64 o2.
Proof. apply flat_map_app. Qed.

Lemma entries64_app o1 o2 : entries64 (o1 ++ o2) = entries64 o1 ++ entries64 o2.
Proof. unfold entries64. by rewrite placements64_app, map_app. Qed.

Lemma entries_app o1 o2 : entries (o1 ++ o2) = entries o1 ++ entries o2.
Proof. unfold entries. by rewrite placements_app, map_app. Qed.

(** ** The page break *)

Lemma page_break64_spec title pg cursor :
  page_break64 title pg cursor =
  if (cursor <? limit64)%float
  then ([ShowPage64; DrawTitle64 (S pg) title], S pg, top_y64)
  else ([], pg, cursor).
Proof. reflexivity. Qed.

Lemma placements64_break_entry title pg0 c0 brk pg cursor e :
  page_break64 title pg0 c0 = (brk, pg, cursor) →
  placements64 (brk ++ [DrawEntry64 pg cursor e]) = [(pg, cursor, e)].
Proof.
  rewrite page_break64_spec. intros Hb.
  by destruct (c0 <? limit64)%float; inversion Hb; subst.
Qed.

Lemma marks64_break_entry title pg0 c0 brk pg cursor e :
  page_break64 title pg0 c0 = (brk, pg, cursor) →
  marks64 (brk ++ [DrawEntry64 pg cursor e]) = [(pg, cursor, en_site e)].
Proof.
  intros Hb. unfold marks64. by rewrite (placements64_break_entry _ _ _ _ _ _ _ Hb).
Qed.

Lemma page_break64_placed title pg0 c0 brk pg cursor s :
  page_break64 title pg0 c0 = (brk, pg, cursor) →
  placed64 pg0 c0 (pg, cursor, s).
Proof.
  rewrite page_break64_spec. unfold placed64. intros Hb.
  by destruct (c0 <? limit64)%float; inversion Hb; subst.
Qed.

Lemma placed64_page pg c m : placed64 pg c m → m.1.1 = pg ∨ m.1.1 = S pg.
Proof.
  unfold placed64. destruct (c <? limit64)%float; intros [? _]; [by right|by left].
Qed.

Lemma canonical64_nil title pg : canonical64 title pg [] pg.
Proof. by split. Qed.

Lemma ops_of64_app title pg l1 l2 :
  ops_of64 title pg (l1 ++ l2) =
  ops_of64 title pg l1 ++ ops_of64 title (final pg (map (λ pl, pl.1.1) l1)) l2.
Proof.
  revert pg. induction l1 as [|[[p v] e] l1 IH]; intros pg; [done|].
  simpl. rewrite IH. by rewrite <- app_assoc.
Qed.

Lemma canonical64_app title pg o1 pg1 o2 pg2 :
  canonical64 title pg o1 pg1 → canonical64 title pg1 o2 pg2 →
  canonical64 title pg (o1 ++ o2) pg2.
Proof.
  intros [H1 ->] [H2 ->]. split.
  - rewrite placements64_app, ops_of64_app. unfold page_indices64 in H2.
    by rewrite <- H1, <- H2.
  - by rewrite page_indices64_app, final_app.
Qed.

Lemma canonical64_break_entry title pg0 c0 brk pg cursor e :
  page_break64 title pg0 c0 = (brk, pg, cursor) →
  canonical64 title pg0 (brk ++ [DrawEntry64 pg cursor e]) pg.
Proof.
  rewrite page_break64_spec. intros Hb.
  destruct (c0 <? limit64)%float; inversion Hb; subst; split; simpl.
  - rewrite decide_False by lia. done.
  - done.
  - by rewrite decide_True.
  - done.
Qed.

(** ** Sequences of marks *)

Lemma flow64_app m l1 l2 : flow64 m (l1 ++ l2) ↔ flow64 m l1 ∧ flow64 (final m l1) l2.
Proof.
  revert m. induction l1 as [|m1 l1 IH]; intros m; simpl; [tauto|].
  rewrite IH. unfold final. simpl. tauto.
Qed.

Lemma final_partner64 (m : mark64) ms :
  Forall (λ m', m'.2 = Partner) ms → ms ≠ [] → (final m ms).2 = Partner.
Proof.
  revert m. induction ms as [|m1 ms IH]; intros m Hall Hne; [done|].
  apply Forall_cons in Hall as [H1 Hall]. unfold final. simpl.
  destruct ms as [|m2 ms]; [done|]. by apply IH.
Qed.

Lemma flow64_lookup m ms i m1 m2 :
  flow64 m ms → (m :: ms) !! i = Some m1 → ms !! i = Some m2 → follows64 m1 m2.
Proof.
  revert m i. induction ms as [|m' ms IH]; intros m i Hflow H1 H2; [done|].
  destruct Hflow as [Hf Hfl]. destruct i as [|i]; simpl in *.
  - by injection H1 as <-; injection H2 as <-.
  - by eapply IH.
Qed.

Lemma flow64_final_ge m ms : flow64 m ms → (m.1.1 ≤ (final m ms).1.1)%nat.
Proof.
  revert m. induction ms as [|m' ms IH]; intros m; [done|].
  intros [Hfo Hfl]. apply IH in Hfl. apply placed64_page in Hfo.
  change (final m (m' :: ms)) with (final m' ms). lia.
Qed.

Lemma flow64_pages m ms :
  flow64 m ms → StronglySorted le (m.1.1 :: map (λ m', m'.1.1) ms).
Proof.
  revert m. induction ms as [|m' ms IH]; intros m.
  - intros _. repeat constructor.
  - intros [Hfo Hfl]. apply IH in Hfl.
    assert (m.1.1 ≤ m'.1.1)%nat as Hle by (apply placed64_page in Hfo; lia).
    simpl. constructor; [done|]. constructor; [done|].
    apply StronglySorted_cons in Hfl as [Hall _].
    eapply Forall_impl; [done|]. simpl. intros. lia.
Qed.

(** The pages on which the calls of a flow draw the title. *)
Lemma title_pages64_ops_of title m pls :
  flow64 m (map mark_of64 pls) →
  title_pages64 (ops_of64 title m.1.1 pls) =
  seq (S m.1.1) ((final m (map mark_of64 pls)).1.1 - m.1.1).
Proof.
  revert m. induction pls as [|[[p v] e] pls IH]; intros m.
  - intros _. simpl. by rewrite Nat.sub_diag.
  - intros [Hfo Hfl]. pose proof (flow64_final_ge _ _ Hfl) as Hge.
    specialize (IH _ Hfl). simpl in IH, Hge.
    change (final m (map mark_of64 ((p, v, e) :: pls)))
      with (final (mark_of64 (p, v, e)) (map mark_of64 pls)).
    simpl ops_of64. rewrite title_pages64_app.
    change (title_pages64 (DrawEntry64 p v e :: ops_of64 title p pls))
      with (title_pages64 (ops_of64 title p pls)).
    rewrite IH. apply placed64_page in Hfo as [Hp|Hp]; simpl in Hp; subst p.
    + by rewrite decide_True.
    + rewrite decide_False by lia. simpl title_pages64.
      remember ((final (mark_of64 (S m.1.1, v, e)) (map mark_of64 pls)).1.1) as f.
      replace (f - m.1.1)%nat with (S (f - S m.1.1)) by lia. done.
Qed.

(** Along the marks of a flow the page never decreases. *)
Lemma flow64_pages_lookup m ms i j p q :
  flow64 m ms → (i ≤ j)%nat →
  map (λ m' : mark64, m'.1.1) ms !! i = Some p →
  map (λ m' : mark64, m'.1.1) ms !! j = Some q → (p ≤ q)%nat.
Proof.
  intros Hf. apply StronglySorted_le_lookup.
  apply flow64_pages in Hf. by apply StronglySorted_cons in Hf as [_ Hs].
Qed.

(** ** One run of the loops, in binary64 *)

Section Run64.
Context (title : string) (em : gmap Z exercise).
Context (exs : list Z) (pm : gmap Z (list Z)).

Lemma render_partner64_Ok p st o st' :
  render_partner64 title em p st = Ok (o, st') →
  ∃ e brk pg cursor,
    page_break64 title (page64 st) (y64 st) = (brk, pg, cursor) ∧
    en_site e = Partner ∧ en_id e = p ∧
    o = brk ++ [DrawEntry64 pg cursor e] ∧
    page64 st' = pg ∧ y64 st' = (cursor - 7 * mm64)%float ∧
    rendered64 st' = {[p]} ∪ rendered64 st.
Proof.
  unfold render_partner64. intros H.
  apply bind_Ok in H as ([[[[name sets] comment] rest] preps] & Hf & H).
  destruct (page_break64 title (page64 st) (y64 st)) as [[brk pg] cursor].
  apply bind_Ok in H as (r & Hr & [= <- <-]).
  by exists (Build_entry Partner p name sets r comment rest), brk, pg, cursor.
Qed.

Lemma render_partners64_cons_Ok p ps st o st' :
  render_partners64 title em (p :: ps) st = Ok (o, st') →
  ∃ o1 st1 o2,
    render_partner64 title em p st = Ok (o1, st1) ∧
    render_partners64 title em ps st1 = Ok (o2, st') ∧
    o = o1 ++ o2.
Proof.
  simpl. intros ([o1 st1] & H1 & H)%bind_Ok.
  apply bind_Ok in H as ([o2 st2] & H2 & [= <- <-]). by exists o1, st1, o2.
Qed.

Lemma render_exercise64_skip x st :
  x ∈ rendered64 st →
  render_exercise64 title em exs pm x st = Ok ([], st).
Proof. intros H. unfold render_exercise64. by rewrite decide_True. Qed.

Lemma render_exercise64_Ok x st o st' :
  x ∉ rendered64 st →
  render_exercise64 title em exs pm x st = Ok (o, st') →
  ∃ e brk pg cursor st1 o2 st2,
    page_break64 title (page64 st) (y64 st) = (brk, pg, cursor) ∧
    en_site e = Primary ∧ en_id e = x ∧
    page64 st1 = pg ∧ y64 st1 = (cursor - 8 * mm64)%float ∧
    render_partners64 title em (select_partners exs pm x ({[x]} ∪ rendered64 st)) st1
      = Ok (o2, st2) ∧
    o = brk ++ DrawEntry64 pg cursor e :: o2 ∧
    page64 st' = page64 st2 ∧
    y64 st' = match select_partners exs pm x ({[x]} ∪ rendered64 st) with
              | [] => y64 st2 - normal_gap64
              | _ :: _ => y64 st2 - paired_gap64 - normal_gap64
              end%float.
Proof.
  intros Hx. unfold render_exercise64. rewrite decide_False by done.
  intros H.
  apply bind_Ok in H as ([[[[name sets] comment] rest] preps] & Hf & H).
  destruct (page_break64 title (page64 st) (y64 st)) as [[brk pg] cursor].
  apply bind_Ok in H as (r & Hr & H).
  set (st1 := {| page64 := pg; y64 := (cursor - 8 * mm64)%float;
                 rendered64 := {[x]} ∪ rendered64 st;
                 reps64 := preps; partner_reps64 := partner_reps64 st |}) in *.
  apply bind_Ok in H as ([o2 st2] & H2 & [= <- <-]).
  exists (Build_entry Primary x name sets r comment rest), brk, pg, cursor, st1.
  change (rendered64 st1) with ({[x]} ∪ rendered64 st) in *.
  destruct (select_partners exs pm x ({[x]} ∪ rendered64 st)) as [|p ps] eqn:E.
  - injection H2 as <- <-. exists [], st1. by repeat split.
  - apply bind_Ok in H2 as ([o3 st3] & H3 & [= <- <-]).
    exists o3, st3. by repeat split.
Qed.

Lemma render_loop64_cons_Ok x todo st o st' :
  render_loop64 title em exs pm (x :: todo) st = Ok (o, st') →
  ∃ o1 st1 o2,
    render_exercise64 title em exs pm x st = Ok (o1, st1) ∧
    render_loop64 title em exs pm todo st1 = Ok (o2, st') ∧
    o = o1 ++ o2.
Proof.
  simpl. intros ([o1 st1] & H1 & H)%bind_Ok.
  apply bind_Ok in H as ([o2 st2] & H2 & [= <- <-]). by exists o1, st1, o2.
Qed.

(** *** The page flow of a run *)

Lemma render_partners64_flow ps st o st' m :
  render_partners64 title em ps st = Ok (o, st') →
  at_row64 st m →
  flow64 m (marks64 o) ∧ at_row64 st' (final m (marks64 o)) ∧
  Forall (λ m', m'.2 = Partner) (marks64 o) ∧ length (marks64 o) = length ps.
Proof.
  revert st o m. induction ps as [|p ps IH]; intros st o m H [Hpg Hy].
  - injection H as <- <-. by repeat split.
  - apply render_partners64_cons_Ok in H as (o1 & st1 & o2 & H1 & H2 & ->).
    apply render_partner64_Ok in H1
      as (e & brk & pg & cursor & Hb & Hs & Hi & -> & Hpg1 & Hy1 & _).
    rewrite marks64_app, (marks64_break_entry _ _ _ _ _ _ _ Hb), Hs.
    destruct (IH st1 o2 (pg, cursor, Partner) H2) as (Hf & Hat & Hall & Hlen).
    { split; simpl; done. }
    simpl. split; [split; [|done]|split; [done|split]].
    + rewrite Hpg, Hy in Hb. by apply (page_break64_placed title _ _ brk).
    + by constructor.
    + by rewrite Hlen.
Qed.

Lemma render_exercise64_flow x st o st' m :
  x ∉ rendered64 st →
  render_exercise64 title em exs pm x st = Ok (o, st') →
  at_block_end64 st m →
  flow64 m (marks64 o) ∧ at_block_end64 st' (final m (marks64 o)) ∧
  match marks64 o with m' :: _ => m'.2 = Primary | [] => False end.
Proof.
  intros Hx H [Hpg Hy]. apply render_exercise64_Ok in H
    as (e & brk & pg & cursor & st1 & o2 & st2 & Hb & Hs & Hi & Hpg1 & Hy1
        & H2 & -> & Hpg' & Hy'); [|done].
  change (brk ++ DrawEntry64 pg cursor e :: o2)
    with (brk ++ [DrawEntry64 pg cursor e] ++ o2).
  rewrite app_assoc, marks64_app, (marks64_break_entry _ _ _ _ _ _ _ Hb), Hs.
  destruct (render_partners64_flow _ _ _ _ (pg, cursor, Primary) H2)
    as (Hf & [Hpg2 Hy2] & Hall & Hlen).
  { by split. }
  simpl. split; [split; [|done]|split; [|done]].
  - rewrite Hpg, Hy in Hb. by apply (page_break64_placed title _ _ brk).
  - change (final m ((pg, cursor, Primary) :: marks64 o2))
      with (final (pg, cursor, Primary) (marks64 o2)).
    split; [congruence|]. rewrite Hy'.
    destruct (select_partners _ _ _ _) as [|p ps].
    + destruct (marks64 o2); [|done]. unfold final in *. simpl in *. by rewrite Hy2.
    + assert ((final (pg, cursor, Primary) (marks64 o2)).2 = Partner) as Hp.
      { apply final_partner64; [done|]. by destruct (marks64 o2). }
      rewrite Hy2. unfold mark64 in *.
      destruct (final (pg, cursor, Primary) (marks64 o2)) as [[fp fv] fs].
      simpl in Hp. by subst fs.
Qed.

Lemma render_loop64_flow todo st o st' m :
  render_loop64 title em exs pm todo st = Ok (o, st') →
  at_block_end64 st m →
  flow64 m (marks64 o) ∧ at_block_end64 st' (final m (marks64 o)) ∧
  match marks64 o with m' :: _ => m'.2 = Primary | [] => True end.
Proof.
  revert st o m. induction todo as [|x todo IH]; intros st o m H Hat.
  - by injection H as <- <-.
  - apply render_loop64_cons_Ok in H as (o1 & st1 & o2 & H1 & H2 & ->).
    rewrite marks64_app, flow64_app, final_app.
    destruct (decide (x ∈ rendered64 st)) as [Hx|Hx].
    + rewrite render_exercise64_skip in H1 by done. injection H1 as <- <-.
      destruct (IH _ _ _ H2 Hat) as (? & ? & ?). split; [by split|]. by split.
    + destruct (render_exercise64_flow _ _ _ _ _ Hx H1 Hat) as (Hf1 & Hat1 & Hp1).
      destruct (IH _ _ _ H2 Hat1) as (? & ? & ?).
      split; [by split|]. split; [done|]. by destruct (marks64 o1).
Qed.

(** *** The calls of a run are those of its placements *)

Lemma render_partners64_canonical ps st o st' :
  render_partners64 title em ps st = Ok (o, st') →
  canonical64 title (page64 st) o (page64 st').
Proof.
  revert st o. induction ps as [|p ps IH]; intros st o H.
  - injection H as <- <-. apply canonical64_nil.
  - apply render_partners64_cons_Ok in H as (o1 & st1 & o2 & H1 & H2 & ->).
    apply render_partner64_Ok in H1
      as (e & brk & pg & cursor & Hb & _ & _ & -> & Hpg1 & _).
    eapply canonical64_app; [by eapply canonical64_break_entry|].
    rewrite <- Hpg1. by apply IH.
Qed.

Lemma render_exercise64_canonical x st o st' :
  render_exercise64 title em exs pm x st = Ok (o, st') →
  canonical64 title (page64 st) o (page64 st').
Proof.
  intros H. destruct (decide (x ∈ rendered64 st)) as [Hx|Hx].
  { rewrite render_exercise64_skip in H by done. injection H as <- <-.
    apply canonical64_nil. }
  apply render_exercise64_Ok in H
    as (e & brk & pg & cursor & st1 & o2 & st2 & Hb & _ & _ & Hpg1 & _
        & H2 & -> & -> & _); [|done].
  change (brk ++ DrawEntry64 pg cursor e :: o2)
    with (brk ++ [DrawEntry64 pg cursor e] ++ o2).
  rewrite app_assoc.
  eapply canonical64_app; [by eapply canonical64_break_entry|].
  rewrite <- Hpg1. by eapply render_partners64_canonical.
Qed.

Lemma render_loop64_canonical todo st o st' :
  render_loop64 title em exs pm todo st = Ok (o, st') →
  canonical64 title (page64 st) o (page64 st').
Proof.
  revert st o. induction todo as [|x todo IH]; intros st o H.
  - injection H as <- <-. apply canonical64_nil.
  - apply render_loop64_cons_Ok in H as (o1 & st1 & o2 & H1 & H2 & ->).
    eapply canonical64_app; [by eapply render_exercise64_canonical|by apply IH].
Qed.

End Run64.

(** ** Whole runs in binary64 *)

Lemma render_workout_pdf64_Ok w cat o :
  render_workout_pdf64 w cat = Ok o →
  ∃ pm o' st',
    find_pairs_map (w_paired_sets w) = Ok pm ∧
    render_loop64 (title_of w) cat (w_exercises w) pm (w_exercises w) initial_state64
      = Ok (o', st') ∧
    o = DrawTitle64 0 (title_of w) :: o'.
Proof.
  unfold render_workout_pdf64. intros (pm & Hpm & H)%bind_Ok.
  apply bind_Ok in H as ([o' st'] & Hl & [= <-]). by exists pm, o', st'.
Qed.

Lemma initial_state64_at : at_block_end64 initial_state64 above_top64.
Proof. split; [done|]. by vm_compute. Qed.

Lemma arrival64_above_top :
  arrival64 above_top64.1.2 above_top64.2 Primary = top_y64 ∧
  (top_y64 <? limit64)%float = false.
Proof. split; by vm_compute. Qed.

Lemma follows64_above_top m :
  m.2 = Primary → follows64 above_top64 m → m.1 = (0%nat, top_y64).
Proof.
  destruct m as [[pg v] s]. intros Hs. simpl in Hs. subst s.
  unfold follows64, placed64. cbn [fst snd].
  destruct arrival64_above_top as [-> ->]. by intros [-> ->].
Qed.

Lemma render_workout_pdf64_flow w cat o :
  render_workout_pdf64 w cat = Ok o →
  ∃ o', o = DrawTitle64 0 (title_of w) :: o' ∧
        flow64 above_top64 (marks64 o') ∧
        o' = ops_of64 (title_of w) 0 (placements64 o') ∧
        match marks64 o' with m :: _ => m.2 = Primary | [] => True end.
Proof.
  intros (pm & o' & st' & _ & Hl & ->)%render_workout_pdf64_Ok. exists o'.
  pose proof (render_loop64_canonical _ _ _ _ _ _ _ _ Hl) as [Hc _].
  apply (render_loop64_flow _ _ _ _ _ _ _ _ above_top64) in Hl as (Hf & _ & Hp);
    [done|apply initial_state64_at].
Qed.

(** The page index never decreases along the rows of a run in binary64,
    whatever the comparisons of the cursor decide. *)
Lemma page_indices64_non_decreasing w cat o :
  render_workout_pdf64 w cat = Ok o →
  ∀ i j p q, (i ≤ j)%nat →
    page_indices64 o !! i = Some p → page_indices64 o !! j = Some q → (p ≤ q)%nat.
Proof.
  intros (o' & -> & Hf & _)%render_workout_pdf64_flow i j p q.
  change (page_indices64 (DrawTitle64 0 (title_of w) :: o')) with (page_indices64 o').
  unfold page_indices64. intros Hij Hi Hj.
  apply (flow64_pages_lookup _ _ i j p q Hf Hij); unfold marks64; by rewrite map_map.
Qed.

(** ** What is drawn does not depend on the cursor *)

Section Agree.
Context (title : string) (em : gmap Z exercise).
Context (exs : list Z) (pm : gmap Z (list Z)).

Lemma entries_break_entry pg0 c0 pg064 c064 e :
  entries ((page_break title pg0 c0).1.1
             ++ [DrawEntry (page_break title pg0 c0).1.2 (page_break title pg0 c0).2 e])
  = entries64 ((page_break64 title pg064 c064).1.1
                 ++ [DrawEntry64 (page_break64 title pg064 c064).1.2
                       (page_break64 title pg064 c064).2 e]).
Proof.
  unfold entries, entries64.
  destruct (page_break title pg0 c0) as [[brk pg] cursor] eqn:E.
  destruct (page_break64 title pg064 c064) as [[brk64 pg64] cursor64] eqn:E64.
  simpl. by rewrite (placements_break_entry _ _ _ _ _ _ _ E),
    (placements64_break_entry _ _ _ _ _ _ _ E64).
Qed.

Lemma render_partner_agree p st st64 :
  same_locals st st64 →
  agree (render_partner title em p st) (render_partner64 title em p st64).
Proof.
  intros (Hr & Hreps & Hpr). unfold render_partner, render_partner64. rewrite <- Hpr.
  destruct (display_fields em p (partner_reps st))
    as [[[[[name sets] comment] rest] preps]|e]; simpl; [|done].
  pose proof (entries_break_entry (page st) (y st) (page64 st64) (y64 st64)) as He.
  destruct (page_break title (page st) (y st)) as [[brk pg] cursor].
  destruct (page_break64 title (page64 st64) (y64 st64)) as [[brk64 pg64] cursor64].
  destruct (read_local preps) as [r|e]; simpl; [|done].
  split; [apply He|]. split; simpl; [by rewrite Hr|done].
Qed.

Lemma render_partners_agree ps st st64 :
  same_locals st st64 →
  agree (render_partners title em ps st) (render_partners64 title em ps st64).
Proof.
  revert st st64. induction ps as [|p ps IH]; intros st st64 Hs; simpl; [done|].
  pose proof (render_partner_agree p st st64 Hs) as H1.
  destruct (render_partner title em p st) as [[o1 st1]|e],
    (render_partner64 title em p st64) as [[o164 st164]|e64]; simpl in *; try done.
  destruct H1 as [He1 Hs1]. specialize (IH _ _ Hs1).
  destruct (render_partners title em ps st1) as [[o2 st2]|e],
    (render_partners64 title em ps st164) as [[o264 st264]|e64]; simpl in *; try done.
  destruct IH as [He2 Hs2]. split; [|done].
  by rewrite entries_app, entries64_app, He1, He2.
Qed.

Lemma render_exercise_agree x st st64 :
  same_locals st st64 →
  agree (render_exercise title em exs pm x st) (render_exercise64 title em exs pm x st64).
Proof.
  intros (Hr & Hreps & Hpr). unfold render_exercise, render_exercise64.
  rewrite <- Hr, <- Hreps, <- Hpr.
  case_decide; [done|].
  destruct (display_fields em x (reps st))
    as [[[[[name sets] comment] rest] preps]|e]; cbn [mbind result_bind]; [|done].
  pose proof (entries_break_entry (page st) (y st) (page64 st64) (y64 st64)) as He.
  destruct (page_break title (page st) (y st)) as [[brk pg] cursor].
  destruct (page_break64 title (page64 st64) (y64 st64)) as [[brk64 pg64] cursor64].
  destruct (read_local preps) as [r|e]; cbn [mbind result_bind]; [|done].
  specialize (He (Build_entry Primary x name sets r comment rest)). simpl in He.
  change (brk ++ ?d :: ?o) with (brk ++ [d] ++ o).
  change (brk64 ++ ?d :: ?o) with (brk64 ++ [d] ++ o).
  set (st1 := {| page := pg; y := cursor - 8; rendered := {[x]} ∪ rendered st;
                 reps := preps; partner_reps := partner_reps st |}).
  set (st164 := {| page64 := pg64; y64 := (cursor64 - 8 * mm64)%float;
                   rendered64 := {[x]} ∪ rendered st;
                   reps64 := preps; partner_reps64 := partner_reps st |}).
  assert (same_locals st1 st164) as Hs1 by done.
  change (rendered st1) with ({[x]} ∪ rendered st).
  change (rendered64 st164) with ({[x]} ∪ rendered st).
  destruct (select_partners exs pm x ({[x]} ∪ rendered st)) as [|p ps].
  - by split.
  - pose proof (render_partners_agree (p :: ps) st1 st164 Hs1) as H2.
    destruct (render_partners title em (p :: ps) st1) as [[o2 st2]|e],
      (render_partners64 title em (p :: ps) st164) as [[o264 st264]|e64];
      try done.
    destruct H2 as [He2 Hs2]. split; [|done]. cbn [fst snd].
    rewrite !app_assoc, entries_app, entries64_app. by rewrite He, He2.
Qed.

Lemma render_loop_agree todo st st64 :
  same_locals st st64 →
  agree (render_loop title em exs pm todo st) (render_loop64 title em exs pm todo st64).
Proof.
  revert st st64. induction todo as [|x todo IH]; intros st st64 Hs; simpl; [done|].
  pose proof (render_exercise_agree x st st64 Hs) as H1.
  destruct (render_exercise title em exs pm x st) as [[o1 st1]|e],
    (render_exercise64 title em exs pm x st64) as [[o164 st164]|e64]; simpl in *; try done.
  destruct H1 as [He1 Hs1]. specialize (IH _ _ Hs1).
  destruct (render_loop title em exs pm todo st1) as [[o2 st2]|e],
    (render_loop64 title em exs pm todo st164) as [[o264 st264]|e64]; simpl in *; try done.
  destruct IH as [He2 Hs2]. split; [|done].
  by rewrite entries_app, entries64_app, He1, He2.
Qed.

End Agree.

(** The run in binary64 raises where the run in exact lengths raises, the
    same exception, and otherwise draws the same entries in the same
    order: the cursor decides pages and positions only. *)
Lemma render_workout_pdf64_entries w cat :
  match render_workout_pdf w cat, render_workout_pdf64 w cat with
  | Ok o, Ok o64 => entries o = entries64 o64
  | Raise e, Raise e64 => e = e64
  | _, _ => False
  end.
Proof.
  unfold render_workout_pdf, render_workout_pdf64.
  destruct (find_pairs_map (w_paired_sets w)) as [pm|e]; simpl; [|done].
  pose proof (render_loop_agree (title_of w) cat (w_exercises w) pm (w_exercises w)
                initial_state initial_state64) as H.
  destruct (render_loop (title_of w) cat (w_exercises w) pm (w_exercises w)
              initial_state) as [[o st]|e],
    (render_loop64 (title_of w) cat (w_exercises w) pm (w_exercises w)
       initial_state64) as [[o64 st64]|e64]; simpl in *; by apply H.
Qed.

(** * The claims *)

(** ** C1 *)

(** C1, as the code behaves when a pair is declared twice: the workout
    [[1, 2]] with the pair (1, 2) declared twice is drawn as the rows
    1, 2, 2.  The partner list of 1 is [[2; 2]], and the filter of line 123
    is evaluated before any partner is added to [rendered], so exercise 2
    is drawn twice instead of once. *)
Theorem partner_of_pair_declared_twice_drawn_twice :
  ∃ o, render_workout_pdf
         (sheet [1; 2] [[PyInt 1; PyInt 2]; [PyInt 1; PyInt 2]]) (table 2) = Ok o ∧
       rendered_ids o = [1; 2; 2].
Proof. eexists. split; by vm_compute. Qed.

(** ** C2 *)

(** C2, as the code behaves on an identifier that is not in the exercise
    table: the placeholder branch binds the name, the sets, the comment and
    the rest but not [reps].  When the first exercise drawn is missing the
    run raises [UnboundLocalError]; so it does when the first partner drawn
    is missing; after an exercise that was found, the placeholder row is
    drawn with the reps text of that exercise. *)
Theorem placeholder_reads_reps_of_earlier_row :
  render_workout_pdf (sheet [99] []) (table 0) = Raise UnboundLocalError ∧
  render_workout_pdf (sheet [1; 99] [[PyInt 1; PyInt 99]]) (table 1)
    = Raise UnboundLocalError ∧
  ∃ o, render_workout_pdf (sheet [1; 99] []) (table 1) = Ok o ∧
       placements o !! 1%nat =
         Some (0%nat, 260,
               {| en_site := Primary; en_id := 99;
                  en_name := "Exercise #99 (missing)"; en_sets := 3;
                  en_reps := "8-12"; en_comment := ""; en_rest := None |}).
Proof. split; [by vm_compute|]. split; [by vm_compute|]. eexists. split; by vm_compute. Qed.

(** ** C3 *)

(** C3 as stated fails twice.  The self-pair (3, 3) is not passed over, it
    puts 3 twice into its own partner list.  The declaration [[1, None]]
    has fewer than two usable values and is not passed over either: it gets
    past [any(pair)], and [int(None)] raises [TypeError]. *)
Lemma self_pair_accepted_and_half_pair_raises :
  find_pairs_map [[PyInt 3; PyInt 3]] = Ok {[3 := [3; 3]]} ∧
  find_pairs_map [[PyInt 3; PyInt 3]] ≠ find_pairs_map [] ∧
  find_pairs_map [[PyInt 1; PyNone]] = Raise TypeError.
Proof.
  split; [by vm_compute|]. split; [|by vm_compute]. intros H.
  apply (f_equal (λ r, match r with Ok m => m !! 3 | Raise _ => None end)) in H.
  vm_compute in H. discriminate.
Qed.

(** C3, amended: a declaration with fewer than two values (the empty one
    among them) or without any usable value (every value is [None] or [0])
    is passed over without raising and leaves the adjacency map as it would
    be without it; a self-pair of a non-zero identifier is accepted and
    appends the identifier twice to its own partner list.  Nothing is said
    of a declaration of two or more values of which some, not all, are
    usable. *)
Theorem skipped_declaration_contributes_nothing :
  (∀ l1 decl l2, skipped decl →
     find_pairs_map (l1 ++ decl :: l2) = find_pairs_map (l1 ++ l2)) ∧
  (∀ a tl rest pairs, a ≠ 0 →
     find_pairs_loop ((PyInt a :: PyInt a :: tl) :: rest) pairs =
     find_pairs_loop rest (<[a := partners_of pairs a ++ [a; a]]> pairs)).
Proof.
  split.
  - intros l1 decl l2 Hs. unfold find_pairs_map.
    rewrite !find_pairs_loop_app.
    destruct (find_pairs_loop l1 ∅) as [m1|]; simpl; [|done].
    by apply find_pairs_loop_skip.
  - intros a tl rest pairs Ha.
    rewrite (find_pairs_loop_declares _ a a).
    + f_equal. unfold setdefault_append, partners_of.
      rewrite lookup_insert_eq, insert_insert_eq. simpl.
      by rewrite <- app_assoc.
    + split; [by eexists|]. intros [Hl|Hf].
      * simpl in Hl. lia.
      * apply Forall_cons in Hf as [[?|[= ?]] _]; done.
Qed.

Lemma skipped_declaration_contributes_nothing_witness :
  skipped [PyInt 0; PyNone] ∧
  find_pairs_map ([[PyInt 2; PyInt 4]] ++ [PyInt 0; PyNone] :: [[PyInt 5]])
    = find_pairs_map ([[PyInt 2; PyInt 4]] ++ [[PyInt 5]]) ∧
  find_pairs_loop ((PyInt 7 :: PyInt 7 :: []) :: []) ∅ =
  find_pairs_loop [] (<[7 := partners_of ∅ 7 ++ [7; 7]]> ∅).
Proof.
  assert (skipped [PyInt 0; PyNone]) as Hs.
  { right. constructor; [by right|]. constructor; [by left|]. constructor. }
  split; [exact Hs|]. split.
  - exact (proj1 skipped_declaration_contributes_nothing _ _ _ Hs).
  - apply (proj2 skipped_declaration_contributes_nothing 7 [] [] ∅). lia.
Defined.

(** The amended claim leaves no declaration out that is passed over: a
    declaration that is not skipped raises or enters the adjacency map. *)
Lemma only_skipped_declarations_are_passed_over decl :
  ¬ skipped decl → find_pairs_map [decl] ≠ find_pairs_map [].
Proof.
  intros Hns. unfold find_pairs_map. rewrite find_pairs_loop_cons.
  destruct (negb (py_any decl) || (length decl <? 2)%nat) eqn:E.
  { by apply skip_test in E. }
  destruct decl as [|[|a] [|[|b] tl]]; simpl in *; try done.
  intros H.
  apply (f_equal (λ r, match r with Ok m => m !! b | Raise _ => None end)) in H.
  unfold setdefault_append in H. by rewrite lookup_insert_eq, lookup_empty in H.
Qed.

(** ** C4 *)

(** C4 as stated fails: declaring (1, 2) twice gives another map than
    declaring it once (the partner list of 1 is [[2; 2]], not [[2]]). *)
Lemma pair_declared_twice_differs :
  find_pairs_map [[PyInt 1; PyInt 2]; [PyInt 1; PyInt 2]] ≠
  find_pairs_map [[PyInt 1; PyInt 2]].
Proof.
  intros H.
  apply (f_equal (λ r, match r with Ok m => m !! 1 | Raise _ => None end)) in H.
  vm_compute in H. discriminate.
Qed.

(** C4, amended: appending a second copy of a declaration already present
    does not raise and leaves the keys of the adjacency map and the members
    of every partner list as they were; the lists themselves grow: for an
    accepted declaration (a, b) with a ≠ b, b is appended once more to the
    list of a and a to the list of b. *)
Theorem pair_declared_again paired_sets decl m :
  decl ∈ paired_sets → find_pairs_map paired_sets = Ok m →
  ∃ m', find_pairs_map (paired_sets ++ [decl]) = Ok m' ∧
        dom m' = dom m ∧
        (∀ k p, p ∈ partners_of m' k ↔ p ∈ partners_of m k) ∧
        (∀ a b, declares decl a b → a ≠ b →
           partners_of m' a = partners_of m a ++ [b] ∧
           partners_of m' b = partners_of m b ++ [a]).
Proof.
  intros Hin Hm. unfold find_pairs_map in *.
  rewrite find_pairs_loop_app, Hm, bind_Ok_l.
  destruct (negb (py_any decl) || (length decl <? 2)%nat) eqn:E.
  { apply skip_test in E. rewrite find_pairs_loop_skip by done. exists m. simpl.
    split; [done|]. split; [done|]. split; [done|].
    intros a b [_ Hns]. done. }
  assert (¬ skipped decl) as Hns by (rewrite <- skip_test, E; done).
  apply list_elem_of_split in Hin as (l1 & l2 & ->).
  pose proof Hm as (m1 & m2 & _ & H2 & _)%find_pairs_loop_split.
  rewrite find_pairs_loop_cons, E in H2.
  destruct decl as [|[|a] [|[|b] tl]]; try done.
  assert (declares (PyInt a :: PyInt b :: tl) a b) as Hd by (split; [by eexists|done]).
  clear H2 E.
  rewrite (find_pairs_loop_declares _ a b) by done. simpl. eexists; split; [done|].
  assert (PyInt a :: PyInt b :: tl ∈ l1 ++ (PyInt a :: PyInt b :: tl) :: l2) as Hin
    by (apply elem_of_app; right; left).
  destruct (find_pairs_loop_declared _ _ a b _ _ Hin Hd Hm) as [Hb Ha].
  split; [|split].
  - rewrite !dom_setdefault_append.
    assert (a ∈ dom m ∧ b ∈ dom m) as [??]; [|set_solver].
    unfold partners_of in *. rewrite !elem_of_dom.
    destruct (m !! a), (m !! b); simpl in *; try done; set_solver.
  - intros k p. rewrite elem_of_partners_step. naive_solver.
  - intros a' b' [[tl' [= <- <- <-]] _] Hne.
    rewrite !partners_of_setdefault_append.
    repeat case_decide; try done; congruence.
Qed.

Lemma pair_declared_again_witness :
  ∃ m', find_pairs_map ([[PyInt 2; PyInt 4]] ++ [[PyInt 2; PyInt 4]]) = Ok m' ∧
        dom m' = dom (<[4 := [2]]> (<[2 := [4]]> (∅ : gmap Z (list Z)))) ∧
        (∀ k p, p ∈ partners_of m' k ↔
                p ∈ partners_of (<[4 := [2]]> (<[2 := [4]]> ∅)) k) ∧
        (∀ a b, declares [PyInt 2; PyInt 4] a b → a ≠ b →
           partners_of m' a = partners_of (<[4 := [2]]> (<[2 := [4]]> ∅)) a ++ [b] ∧
           partners_of m' b = partners_of (<[4 := [2]]> (<[2 := [4]]> ∅)) b ++ [a]).
Proof.
  apply (pair_declared_again [[PyInt 2; PyInt 4]] [PyInt 2; PyInt 4]).
  - left.
  - reflexivity.
Defined.

(** ** C5 *)

(** C5 as stated fails: in a workout of seventeen exercises with the pairs
    (1, 2) and (3, 4) the last row is reached with the cursor near 49 mm
    (138.9 points).  With the row height of 8 mm taken off, the cursor is
    below the limit of 12 mm + 30 mm, so the stated test asks for a page
    break; the cursor itself is not below the limit, and the row is drawn
    on the same page, at the cursor. *)
Lemma no_break_within_entry_height :
  ∃ o pl1 pl2,
    render_workout_pdf64
      (sheet (map Z.of_nat (seq 1 17)) [[PyInt 1; PyInt 2]; [PyInt 3; PyInt 4]])
      (table 17) = Ok o ∧
    placements64 o !! 15%nat = Some pl1 ∧ placements64 o !! 16%nat = Some pl2 ∧
    let cursor := arrival64 pl1.1.2 (en_site pl1.2) (en_site pl2.2) in
    spec_break_test64 cursor (row_height64 (en_site pl2.2)) margin64 (30 * mm64) = true ∧
    (cursor <? limit64)%float = false ∧
    pl2.1.1 = pl1.1.1 ∧ pl2.1.2 = cursor.
Proof.
  eexists _, _, _. split; [by vm_compute|].
  split; [by vm_compute|]. split; [by vm_compute|]. by vm_compute.
Qed.

(** C5, amended: a page break occurs immediately before an entry exactly
    when the cursor on reaching the entry compares below the bottom margin
    plus 30 mm (the height of the entry is not taken off first).  The
    cursor and the limit are the binary64 numbers the source computes, and
    the comparison is the one of binary64.  The break increments the page,
    draws the title again and places the entry at the top position; without
    a break the entry is placed on the page of the entry before it, at the
    cursor.  The first entry is at the top of page 0, every entry is on one
    page, and the title is drawn once on every page from the first to the
    last. *)
Theorem page_break_below_limit w cat o :
  render_workout_pdf64 w cat = Ok o →
  (∀ pl, placements64 o !! 0%nat = Some pl → pl.1 = (0%nat, top_y64)) ∧
  (∀ i pl1 pl2,
     placements64 o !! i = Some pl1 → placements64 o !! S i = Some pl2 →
     let cursor := arrival64 pl1.1.2 (en_site pl1.2) (en_site pl2.2) in
     ((cursor <? limit64)%float = true → pl2.1.1 = S pl1.1.1 ∧ pl2.1.2 = top_y64) ∧
     ((cursor <? limit64)%float = false → pl2.1.1 = pl1.1.1 ∧ pl2.1.2 = cursor)) ∧
  o = DrawTitle64 0 (title_of w) :: ops_of64 (title_of w) 0 (placements64 o) ∧
  title_pages64 o = seq 0 (S (final 0%nat (page_indices64 o))).
Proof.
  intros (o' & -> & Hf & Hc & Hp)%render_workout_pdf64_flow.
  change (placements64 (DrawTitle64 0 (title_of w) :: o')) with (placements64 o').
  change (page_indices64 (DrawTitle64 0 (title_of w) :: o')) with (page_indices64 o').
  unfold marks64 in *. split; [|split; [|split]].
  - intros [[pg v] e] Hpl. destruct (placements64 o') as [|pl pls]; [done|].
    injection Hpl as ->. destruct Hf as [Hf _]. simpl in Hp.
    by apply follows64_above_top in Hf.
  - intros i pl1 pl2 H1 H2. destruct (placements64 o') as [|pl pls]; [done|].
    destruct Hf as [_ Hf]. simpl in H2.
    assert (follows64 (mark_of64 pl1) (mark_of64 pl2)) as Hfo.
    { apply (flow64_lookup (mark_of64 pl) (map mark_of64 pls) i).
      + done.
      + rewrite <- fmap_cons. by rewrite list_lookup_fmap, H1.
      + by rewrite list_lookup_fmap, H2. }
    unfold follows64, placed64 in Hfo. simpl in Hfo. simpl.
    destruct (arrival64 pl1.1.2 (en_site pl1.2) (en_site pl2.2) <? limit64)%float;
      by split.
  - by rewrite <- Hc.
  - change (title_pages64 (DrawTitle64 0 (title_of w) :: o'))
      with (0%nat :: title_pages64 o').
    pose proof (title_pages64_ops_of (title_of w) above_top64 _ Hf) as Ht.
    simpl in Ht. rewrite <- Hc in Ht. rewrite Ht, Nat.sub_0_r.
    unfold page_indices64.
    by rewrite (final_map (λ m : mark64, m.1.1)), map_map.
Qed.

Lemma page_break_below_limit_witness :
  render_workout_pdf64 at_limit (table 20)
    = Ok (calls64 (render_workout_pdf64 at_limit (table 20))) ∧
  (∀ pl, placements64 (calls64 (render_workout_pdf64 at_limit (table 20))) !! 0%nat
           = Some pl →
     pl.1 = (0%nat, top_y64)) ∧
  (∀ i pl1 pl2,
     placements64 (calls64 (render_workout_pdf64 at_limit (table 20))) !! i = Some pl1 →
     placements64 (calls64 (render_workout_pdf64 at_limit (table 20))) !! S i = Some pl2 →
     let cursor := arrival64 pl1.1.2 (en_site pl1.2) (en_site pl2.2) in
     ((cursor <? limit64)%float = true → pl2.1.1 = S pl1.1.1 ∧ pl2.1.2 = top_y64) ∧
     ((cursor <? limit64)%float = false → pl2.1.1 = pl1.1.1 ∧ pl2.1.2 = cursor)) ∧
  calls64 (render_workout_pdf64 at_limit (table 20))
    = DrawTitle64 0 (title_of at_limit)
        :: ops_of64 (title_of at_limit) 0
             (placements64 (calls64 (render_workout_pdf64 at_limit (table 20)))) ∧
  title_pages64 (calls64 (render_workout_pdf64 at_limit (table 20))) = [0; 1]%nat.
Proof.
  assert (render_workout_pdf64 at_limit (table 20)
            = Ok (calls64 (render_workout_pdf64 at_limit (table 20)))) as Hrun
    by by vm_compute.
  destruct (page_break_below_limit at_limit (table 20) _ Hrun) as (H0 & Hstep & Hops & Ht).
  split; [exact Hrun|]. split; [exact H0|]. split; [exact Hstep|].
  split; [exact Hops|]. rewrite Ht. by vm_compute.
Defined.

(** ** C6 *)

(** C6: the rows of a run are the concatenation of its blocks, each a
    primary row followed at once by its partner rows; the blocks are those
    of the sequencer, and the partners of a block are partners of its
    primary in the adjacency map, in the order of its partner list (the
    order in which the declarations appended them). *)
Theorem partners_follow_their_primary w cat o :
  render_workout_pdf w cat = Ok o →
  ∃ pm, find_pairs_map (w_paired_sets w) = Ok pm ∧
        rows o = concat (block_rows <$> blocks_of (rows o)) ∧
        blocks_of (rows o) = sequence (w_exercises w) pm ∧
        Forall (λ b, partners b `sublist_of` partners_of pm (primary b))
               (blocks_of (rows o)).
Proof.
  intros (pm & Hpm & Hrows)%render_workout_pdf_blocks. exists pm.
  rewrite Hrows, blocks_of_concat.
  split; [done|]. split; [done|]. split; [done|].
  apply sequence_loop_partners.
Qed.

Lemma partners_follow_their_primary_witness :
  render_workout_pdf supersets (table 5)
    = Ok (calls (render_workout_pdf supersets (table 5))) ∧
  rows (calls (render_workout_pdf supersets (table 5)))
    = [(Primary, 1); (Primary, 2); (Partner, 5); (Partner, 4); (Primary, 3)] ∧
  ∃ pm, find_pairs_map (w_paired_sets supersets) = Ok pm ∧
        rows (calls (render_workout_pdf supersets (table 5)))
          = concat (block_rows
                      <$> blocks_of (rows (calls (render_workout_pdf supersets (table 5))))) ∧
        blocks_of (rows (calls (render_workout_pdf supersets (table 5))))
          = sequence (w_exercises supersets) pm ∧
        Forall (λ b, partners b `sublist_of` partners_of pm (primary b))
               (blocks_of (rows (calls (render_workout_pdf supersets (table 5))))).
Proof.
  split; [by vm_compute|]. split; [by vm_compute|].
  apply (partners_follow_their_primary supersets (table 5)). by vm_compute.
Defined.

(** ** C7 *)

(** C7: the blocks of a run come in the order of the earliest position, in
    the workout's exercise list, of any of their members; that position is
    the one of the primary.  For the exercise list [[1; 2; 3; 4]] with the
    single pair (2, 4) the blocks are 1, then 2 with partner 4, then 3, and
    the rows are 1, 2, 4, 3. *)
Theorem blocks_in_first_occurrence_order w cat o :
  render_workout_pdf w cat = Ok o →
  StronglySorted lt (first_member_index (w_exercises w) <$> blocks_of (rows o)) ∧
  Forall (λ b, first_member_index (w_exercises w) b
               = first_index (primary b) (w_exercises w))
         (blocks_of (rows o)) ∧
  (w_exercises w = [1; 2; 3; 4] → w_paired_sets w = [[PyInt 2; PyInt 4]] →
   blocks_of (rows o) =
     [ {| primary := 1; partners := [] |};
       {| primary := 2; partners := [4] |};
       {| primary := 3; partners := [] |} ] ∧
   rendered_ids o = [1; 2; 4; 3]).
Proof.
  intros (pm & Hpm & Hrows)%render_workout_pdf_blocks.
  rewrite rendered_ids_rows, Hrows, blocks_of_concat.
  destruct (sequence_loop_order (w_exercises w) pm [] (w_exercises w) ∅)
    as (Hlater & _ & Hsorted); [done|by intros d ?%elem_of_nil|].
  assert (Forall (λ b, first_member_index (w_exercises w) b
                       = first_index (primary b) (w_exercises w))
                 (sequence (w_exercises w) pm)) as Hprim.
  { eapply Forall_impl; [exact Hlater|]. intros b Hb.
    by apply first_member_index_primary. }
  split; [|split; [done|]].
  - by rewrite (Forall_fmap_ext_1 _ _ _ Hprim).
  - intros Hexs Hps. rewrite Hps in Hpm. rewrite Hexs.
    assert (pm = <[4 := [2]]> (<[2 := [4]]> ∅)) as ->.
    { vm_compute in Hpm. by injection Hpm as <-. }
    split; by vm_compute.
Qed.

Lemma blocks_in_first_occurrence_order_witness :
  render_workout_pdf four_with_pair (table 4)
    = Ok (calls (render_workout_pdf four_with_pair (table 4))) ∧
  StronglySorted lt
    (first_member_index (w_exercises four_with_pair)
       <$> blocks_of (rows (calls (render_workout_pdf four_with_pair (table 4))))) ∧
  blocks_of (rows (calls (render_workout_pdf four_with_pair (table 4)))) =
    [ {| primary := 1; partners := [] |};
      {| primary := 2; partners := [4] |};
      {| primary := 3; partners := [] |} ] ∧
  rendered_ids (calls (render_workout_pdf four_with_pair (table 4))) = [1; 2; 4; 3].
Proof.
  assert (render_workout_pdf four_with_pair (table 4)
            = Ok (calls (render_workout_pdf four_with_pair (table 4)))) as Hrun
    by by vm_compute.
  destruct (blocks_in_first_occurrence_order four_with_pair (table 4) _ Hrun)
    as (Hs & _ & Hex).
  split; [exact Hrun|]. split; [exact Hs|].
  apply Hex; reflexivity.
Defined.

(** ** C8 *)

(** C8: the adjacency map is symmetric, b is in the partner list of a if
    and only if a is in the partner list of b; and for every accepted
    declaration (a, b) both memberships hold. *)
Theorem adjacency_symmetric paired_sets m :
  find_pairs_map paired_sets = Ok m →
  (∀ a b, b ∈ partners_of m a ↔ a ∈ partners_of m b) ∧
  (∀ decl a b, decl ∈ paired_sets → declares decl a b →
     b ∈ partners_of m a ∧ a ∈ partners_of m b).
Proof.
  intros Hm. split.
  - by apply (find_pairs_map_symmetric paired_sets).
  - intros decl a b Hin Hd. by apply (find_pairs_loop_declared paired_sets decl a b ∅).
Qed.

Lemma adjacency_symmetric_witness :
  find_pairs_map [[PyInt 2; PyInt 4]; [PyNone]; [PyInt 2; PyInt 5]]
    = Ok (<[5 := [2]]> (<[4 := [2]]> (<[2 := [4; 5]]> ∅))) ∧
  (∀ a b, b ∈ partners_of (<[5 := [2]]> (<[4 := [2]]> (<[2 := [4; 5]]> ∅))) a ↔
          a ∈ partners_of (<[5 := [2]]> (<[4 := [2]]> (<[2 := [4; 5]]> ∅))) b) ∧
  (∀ decl a b, decl ∈ [[PyInt 2; PyInt 4]; [PyNone]; [PyInt 2; PyInt 5]] →
     declares decl a b →
     b ∈ partners_of (<[5 := [2]]> (<[4 := [2]]> (<[2 := [4; 5]]> ∅))) a ∧
     a ∈ partners_of (<[5 := [2]]> (<[4 := [2]]> (<[2 := [4; 5]]> ∅))) b).
Proof.
  split; [by vm_compute|].
  apply (adjacency_symmetric [[PyInt 2; PyInt 4]; [PyNone]; [PyInt 2; PyInt 5]]).
  by vm_compute.
Defined.

(** ** C9 *)

(** C9: along the rows of a run, in drawing order, the page index never
    decreases. *)
Theorem page_indices_non_decreasing w cat o :
  render_workout_pdf w cat = Ok o →
  ∀ i j p q, (i ≤ j)%nat →
    page_indices o !! i = Some p → page_indices o !! j = Some q → (p ≤ q)%nat.
Proof.
  intros (o' & -> & Hf & _)%render_workout_pdf_flow i j p q.
  change (page_indices (DrawTitle 0 (title_of w) :: o')) with (page_indices o').
  apply StronglySorted_le_lookup.
  apply flow_pages in Hf. apply StronglySorted_cons in Hf as [_ Hs].
  by rewrite page_indices_marks.
Qed.

Lemma page_indices_non_decreasing_witness :
  render_workout_pdf singles (table 20)
    = Ok (calls (render_workout_pdf singles (table 20))) ∧
  (3 ≤ 17)%nat ∧
  page_indices (calls (render_workout_pdf singles (table 20))) !! 3%nat = Some 0%nat ∧
  page_indices (calls (render_workout_pdf singles (table 20))) !! 17%nat = Some 1%nat ∧
  (0 ≤ 1)%nat.
Proof.
  assert (render_workout_pdf singles (table 20)
            = Ok (calls (render_workout_pdf singles (table 20)))) as Hrun
    by by vm_compute.
  assert (3 ≤ 17)%nat as Hle by lia.
  assert (page_indices (calls (render_workout_pdf singles (table 20))) !! 3%nat
            = Some 0%nat) as H3 by by vm_compute.
  assert (page_indices (calls (render_workout_pdf singles (table 20))) !! 17%nat
            = Some 1%nat) as H17 by by vm_compute.
  split; [exact Hrun|]. split; [exact Hle|]. split; [exact H3|]. split; [exact H17|].
  exact (page_indices_non_decreasing singles (table 20) _ Hrun
           3%nat 17%nat 0%nat 1%nat Hle H3 H17).
Defined.

(** ** C10 *)

(** C10, as the code behaves when the repeated identifier is also a partner
    of a pair declared twice: the exercise list [[1; 2; 2]] with the pair
    (1, 2) declared twice is drawn as the rows 1, 2, 2.  The second
    occurrence of 2 in the list is passed over, as the claim says; it is
    the partner list [[2; 2]] of 1 that draws 2 twice, the filter of line
    123 being evaluated before any partner is added to [rendered] (the
    defect of C1). *)
Theorem repeated_identifier_drawn_twice :
  ∃ o pm,
    render_workout_pdf
      (sheet [1; 2; 2] [[PyInt 1; PyInt 2]; [PyInt 1; PyInt 2]]) (table 2) = Ok o ∧
    rendered_ids o = [1; 2; 2] ∧
    find_pairs_map [[PyInt 1; PyInt 2]; [PyInt 1; PyInt 2]] = Ok pm ∧
    partners_of pm 1 = [2; 2] ∧
    select_partners [1; 2; 2] pm 1 {[1]} = [2; 2].
Proof.
  eexists _, _. split; [by vm_compute|]. split; [by vm_compute|].
  split; [by vm_compute|]. split; by vm_compute.
Qed.

(** * Further properties *)

(** ** Strings as character lists *)

Lemma chars_app s1 s2 :
  list_ascii_of_string (s1 +:+ s2) = list_ascii_of_string s1 ++ list_ascii_of_string s2.
Proof. induction s1 as [|c s1 IH]; simpl; [done|]. by rewrite IH. Qed.

Lemma chars_inj s1 s2 : list_ascii_of_string s1 = list_ascii_of_string s2 → s1 = s2.
Proof.
  intros H. rewrite <- (string_of_list_ascii_of_string s1).
  rewrite <- (string_of_list_ascii_of_string s2). by rewrite H.
Qed.

Lemma head_rev {A} (l : list A) : head (rev l) = last l.
Proof.
  induction l as [|a l IH] using rev_ind; [done|].
  by rewrite rev_app_distr, last_snoc.
Qed.

Lemma last_rev {A} (l : list A) : last (rev l) = head l.
Proof. by rewrite <- head_rev, rev_involutive. Qed.

(** ** [sanitize] *)

Lemma lstrip_char_split ch l :
  ∃ k, l = k ++ lstrip_char ch l ∧ Forall (λ c, c = ch) k ∧
       head (lstrip_char ch l) ≠ Some ch.
Proof.
  induction l as [|c l (k & Hl & Hk & Hh)]; simpl.
  - by exists [].
  - case_decide as Hc.
    + exists (c :: k). split; [by rewrite Hl at 1|]. split; [by constructor|done].
    + exists []. split; [done|]. split; [constructor|]. simpl. congruence.
Qed.

Lemma lstrip_char_id ch l : head l ≠ Some ch → lstrip_char ch l = l.
Proof. destruct l as [|c l]; simpl; [done|]. intros H. case_decide; congruence. Qed.

Lemma lstrip_char_nil ch l : lstrip_char ch l = [] ↔ Forall (λ c, c = ch) l.
Proof.
  induction l as [|c l IH]; simpl; [split; [constructor|done]|].
  rewrite Forall_cons. case_decide; [tauto|]. split; [done|tauto].
Qed.

Lemma strip_char_id ch l :
  head l ≠ Some ch → last l ≠ Some ch → strip_char ch l = l.
Proof.
  intros Hh Hl. unfold strip_char. rewrite (lstrip_char_id ch l) by done.
  rewrite lstrip_char_id by by rewrite head_rev. apply rev_involutive.
Qed.

Lemma strip_char_ends ch l :
  head (strip_char ch l) ≠ Some ch ∧ last (strip_char ch l) ≠ Some ch.
Proof.
  unfold strip_char.
  destruct (lstrip_char_split ch l) as (k1 & H1 & _ & Hh1).
  destruct (lstrip_char_split ch (rev (lstrip_char ch l))) as (k2 & H2 & _ & Hh2).
  set (m := lstrip_char ch (rev (lstrip_char ch l))) in *.
  split; [|by rewrite last_rev].
  apply (f_equal (@rev ascii)) in H2. rewrite rev_involutive, rev_app_distr in H2.
  rewrite H2 in Hh1. destruct (rev m) as [|c r]; [done|]. done.
Qed.

Lemma strip_char_Forall (P : ascii → Prop) ch l :
  Forall P l → Forall P (strip_char ch l).
Proof.
  intros H. unfold strip_char.
  destruct (lstrip_char_split ch l) as (k1 & H1 & _ & _).
  destruct (lstrip_char_split ch (rev (lstrip_char ch l))) as (k2 & H2 & _ & _).
  rewrite H1 in H. apply Forall_app in H as [_ H].
  apply Forall_rev in H. rewrite H2 in H. apply Forall_app in H as [_ H].
  by apply Forall_rev.
Qed.

Lemma strip_char_nil ch l : strip_char ch l = [] ↔ Forall (λ c, c = ch) l.
Proof.
  unfold strip_char. split.
  - intros H. apply (f_equal (@rev ascii)) in H. rewrite rev_involutive in H.
    simpl in H. apply lstrip_char_nil in H.
    destruct (lstrip_char_split ch l) as (k & Hl & Hk & _).
    rewrite Hl. apply Forall_app. split; [done|].
    apply Forall_rev in H. by rewrite rev_involutive in H.
  - intros H. apply lstrip_char_nil in H. by rewrite H.
Qed.

Lemma sub_unsafe_runs_safe b l :
  Forall (λ c, safe_char c = true) (sub_unsafe_runs b l).
Proof.
  revert b. induction l as [|c l IH]; intros b; simpl; [constructor|].
  destruct (safe_char c) eqn:E; [by constructor|].
  destruct b; [done|]. by constructor.
Qed.

Lemma sub_unsafe_runs_id b l :
  Forall (λ c, safe_char c = true) l → sub_unsafe_runs b l = l.
Proof.
  intros H. revert b. induction H as [|c l Hc H IH]; intros b; simpl; [done|].
  by rewrite Hc, IH.
Qed.

Lemma sub_unsafe_runs_underscores b l :
  Forall (λ c, c = "_"%char) (sub_unsafe_runs b l) ↔
  Forall (λ c, safe_char c = false ∨ c = "_"%char) l.
Proof.
  revert b. induction l as [|c l IH]; intros b; simpl; [split; constructor|].
  rewrite Forall_cons. destruct (safe_char c) eqn:E.
  - rewrite Forall_cons, IH. split; [tauto|]. intros [[?|?] ?]; [done|tauto].
  - destruct b; [|rewrite Forall_cons]; rewrite IH; tauto.
Qed.

Lemma sanitize_chars_safe l : Forall (λ c, safe_char c = true) (sanitize_chars l).
Proof. apply strip_char_Forall, sub_unsafe_runs_safe. Qed.

Lemma sanitize_chars_ends l :
  head (sanitize_chars l) ≠ Some "_"%char ∧ last (sanitize_chars l) ≠ Some "_"%char.
Proof. apply strip_char_ends. Qed.

Lemma sanitize_chars_clean l :
  Forall (λ c, safe_char c = true) l →
  head l ≠ Some "_"%char → last l ≠ Some "_"%char →
  sanitize_chars l = l.
Proof.
  intros Hs Hh Hl. unfold sanitize_chars.
  by rewrite sub_unsafe_runs_id, strip_char_id.
Qed.

Lemma chars_sanitize s :
  list_ascii_of_string (sanitize s) = sanitize_chars (list_ascii_of_string s).
Proof. apply list_ascii_of_string_of_list_ascii. Qed.

(** X1: the name [sanitize] returns consists of letters, digits, hyphens
    and underscores only. *)
Theorem sanitize_alphabet s :
  Forall (λ c, safe_char c = true) (list_ascii_of_string (sanitize s)).
Proof. rewrite chars_sanitize. apply sanitize_chars_safe. Qed.

(** X2: the name [sanitize] returns neither begins nor ends with an
    underscore. *)
Theorem sanitize_ends s :
  head (list_ascii_of_string (sanitize s)) ≠ Some "_"%char ∧
  last (list_ascii_of_string (sanitize s)) ≠ Some "_"%char.
Proof. rewrite chars_sanitize. apply sanitize_chars_ends. Qed.

(** X3: [sanitize] is idempotent: a sanitized name is returned as it is. *)
Theorem sanitize_idempotent s : sanitize (sanitize s) = sanitize s.
Proof.
  apply chars_inj. rewrite (chars_sanitize (sanitize s)), chars_sanitize.
  apply sanitize_chars_clean; [apply sanitize_chars_safe|apply sanitize_chars_ends..].
Qed.

(** X4: a name of letters, digits, hyphens and underscores that neither
    begins nor ends with an underscore is returned unchanged. *)
Theorem sanitize_clean s :
  Forall (λ c, safe_char c = true) (list_ascii_of_string s) →
  head (list_ascii_of_string s) ≠ Some "_"%char →
  last (list_ascii_of_string s) ≠ Some "_"%char →
  sanitize s = s.
Proof.
  intros Hs Hh Hl. apply chars_inj. rewrite chars_sanitize.
  by apply sanitize_chars_clean.
Qed.

Lemma sanitize_clean_witness :
  Forall (λ c, safe_char c = true) (list_ascii_of_string "Push_day-2") ∧
  head (list_ascii_of_string "Push_day-2") ≠ Some "_"%char ∧
  last (list_ascii_of_string "Push_day-2") ≠ Some "_"%char ∧
  sanitize "Push_day-2" = "Push_day-2".
Proof.
  assert (Forall (λ c, safe_char c = true) (list_ascii_of_string "Push_day-2")) as H1
    by (repeat constructor).
  assert (head (list_ascii_of_string "Push_day-2") ≠ Some "_"%char) as H2 by done.
  assert (last (list_ascii_of_string "Push_day-2") ≠ Some "_"%char) as H3 by done.
  split; [exact H1|]. split; [exact H2|]. split; [exact H3|].
  exact (sanitize_clean "Push_day-2" H1 H2 H3).
Defined.

(** X5: [sanitize] returns the empty name exactly for the strings without
    a letter, a digit or a hyphen; every such workout name gives the same
    file name stem. *)
Theorem sanitize_empty s :
  sanitize s = "" ↔
  Forall (λ c, safe_char c = false ∨ c = "_"%char) (list_ascii_of_string s).
Proof.
  rewrite <- sub_unsafe_runs_underscores with (b := false), <- strip_char_nil.
  fold (sanitize_chars (list_ascii_of_string s)). rewrite <- chars_sanitize.
  split; [by intros ->|]. intros H. by apply chars_inj.
Qed.

(** ** [draw_boxes] *)

Ltac units :=
  unfold top_y, box_w, box_h, gap, mm, page_w, margin, page_h, normal_gap, paired_gap in *.
Ltac dlia := zify; Z.div_mod_to_equations; lia.

Lemma rects_app cs1 cs2 : rects (cs1 ++ cs2) = rects cs1 ++ rects cs2.
Proof. apply flat_map_app. Qed.

Lemma draw_boxes_loop_S n x y :
  draw_boxes_loop (S n) x y =
  [ Rect x (y - box_h) box_w box_h;
    SetFont "Helvetica" 6;
    DrawCentredString (x + box_w / 2) (y - box_h + 3) "reps";
    Rect (x + box_w) (y - box_h) box_w box_h;
    DrawCentredString (x + box_w + box_w / 2) (y - box_h + 3) "kg" ]
  ++ draw_boxes_loop n (x + box_w + (box_w + gap)) y.
Proof. reflexivity. Qed.

Lemma rects_draw_boxes_loop n x y :
  rects (draw_boxes_loop n x y) = map (box x y) (seq 0 (2 * n)).
Proof.
  revert x. induction n as [|n IH]; intros x; [done|].
  replace (2 * S n)%nat with (S (S (2 * n))) by lia.
  rewrite draw_boxes_loop_S, rects_app, IH.
  change (seq 0 (S (S (2 * n)))) with (0%nat :: 1%nat :: seq 2 (2 * n)).
  rewrite <- !fmap_S_seq. cbn [map rects flat_map app].
  f_equal; [unfold box; simpl; f_equal; f_equal; f_equal; lia|].
  f_equal; [unfold box; simpl; f_equal; f_equal; f_equal; lia|].
  rewrite !map_map. apply map_ext. intros k.
  unfold box. f_equal. f_equal. f_equal.
  replace (S (S k) / 2)%nat with (S (k / 2)) by dlia.
  replace (S (S k) mod 2)%nat with (k mod 2)%nat by dlia.
  lia.
Qed.

Lemma rects_draw_boxes x y sets :
  rects (draw_boxes x y sets) = map (box x y) (seq 0 (2 * Z.to_nat sets)).
Proof. apply rects_draw_boxes_loop. Qed.

Lemma rects_draw_exercise_entry x_left y name sets reps comment rest indent :
  rects (draw_exercise_entry x_left y name sets reps comment rest indent)
  = map (box (x_left + mm 50) (y + mm 6)) (seq 0 (2 * Z.to_nat sets)).
Proof.
  unfold draw_exercise_entry. rewrite !rects_app, rects_draw_boxes.
  by destruct (meta_parts reps comment rest).
Qed.

Lemma lookup_boxes x y n k r :
  map (box x y) (seq 0 n) !! k = Some r → (k < n)%nat ∧ r = box x y k.
Proof.
  rewrite list_lookup_fmap. intros H.
  destruct (seq 0 n !! k) as [i|] eqn:E; [|done].
  apply lookup_seq in E as [-> ?]. simpl in H. by injection H as <-.
Qed.

(** X6: [draw_boxes] draws two rectangles for every set, none when [sets]
    is zero or negative; all have the default width and height and their
    top edge at [y]; the rectangles of set [i] start at
    [x + i * (2 * box_w + gap)] and [box_w] further right. *)
Theorem draw_boxes_rectangles x y sets :
  length (rects (draw_boxes x y sets)) = (2 * Z.to_nat sets)%nat ∧
  ∀ k r, rects (draw_boxes x y sets) !! k = Some r →
    r = (x + (box_w + box_w + gap) * Z.of_nat (k / 2) + box_w * Z.of_nat (k mod 2),
         y - box_h, box_w, box_h).
Proof.
  rewrite rects_draw_boxes. split; [by rewrite length_map, length_seq|].
  intros k r Hk. by apply lookup_boxes in Hk as [_ ->].
Qed.

(** X7: the rectangles of a row of boxes are drawn from left to right
    without overlap: the "kg" box begins where the "reps" box of its set
    ends, and the next set begins [gap] after it. *)
Theorem draw_boxes_left_to_right x y sets k r r' :
  rects (draw_boxes x y sets) !! k = Some r →
  rects (draw_boxes x y sets) !! S k = Some r' →
  r'.1.1.1 = r.1.1.1 + r.1.2 + (if Nat.even k then 0 else gap).
Proof.
  rewrite rects_draw_boxes. intros [_ ->]%lookup_boxes [_ ->]%lookup_boxes.
  unfold box. cbn [fst snd]. destruct (Nat.even k) eqn:E.
  - apply Nat.even_spec in E as [j ->].
    assert (S (2 * j) / 2 = 2 * j / 2)%nat as -> by dlia.
    assert (S (2 * j) mod 2 = 1)%nat as -> by dlia.
    assert (2 * j mod 2 = 0)%nat as -> by dlia. lia.
  - assert (Nat.odd k = true) as [j ->]%Nat.odd_spec
      by (rewrite <- Nat.negb_even, E; done).
    assert (S (2 * j + 1) / 2 = S ((2 * j + 1) / 2))%nat as -> by dlia.
    assert (S (2 * j + 1) mod 2 = 0)%nat as -> by dlia.
    assert ((2 * j + 1) mod 2 = 1)%nat as -> by dlia. lia.
Qed.

Lemma draw_boxes_left_to_right_witness :
  rects (draw_boxes 124 562 3) !! 1%nat = Some (152, 546, 28, 16) ∧
  rects (draw_boxes 124 562 3) !! 2%nat = Some (188, 546, 28, 16) ∧
  188 = 152 + 28 + gap.
Proof.
  assert (rects (draw_boxes 124 562 3) !! 1%nat = Some (152, 546, 28, 16)) as H1
    by by vm_compute.
  assert (rects (draw_boxes 124 562 3) !! 2%nat = Some (188, 546, 28, 16)) as H2
    by by vm_compute.
  split; [exact H1|]. split; [exact H2|].
  exact (draw_boxes_left_to_right 124 562 3 1 _ _ H1 H2).
Defined.

(** X8: the boxes of an exercise row drawn at the left margin stay on the
    A4 page exactly when the exercise has at most four sets; from five
    sets on the last boxes reach beyond the right edge. *)
Theorem entry_boxes_fit_page y name sets reps comment rest :
  Forall (λ r, r.1.1.1 + r.1.2 ≤ mm page_w)
         (rects (draw_exercise_entry (mm margin) y name sets reps comment rest 0))
  ↔ sets ≤ 4.
Proof.
  rewrite rects_draw_exercise_entry, Forall_lookup. split.
  - intros H. destruct (decide (sets ≤ 4)) as [|Hs]; [done|].
    assert (map (box (mm margin + mm 50) (y + mm 6)) (seq 0 (2 * Z.to_nat sets))
              !! 9%nat = Some (box (mm margin + mm 50) (y + mm 6) 9)) as H9.
    { rewrite list_lookup_fmap, lookup_seq_lt by lia. done. }
    apply H in H9. unfold box in H9. cbn [fst snd] in H9.
    change (9 / 2)%nat with 4%nat in H9. change (9 mod 2)%nat with 1%nat in H9.
    units. lia.
  - intros Hs k r [Hk ->]%lookup_boxes. unfold box. cbn [fst snd].
    assert (k / 2 ≤ 3)%nat by dlia. assert (k mod 2 ≤ 1)%nat by dlia.
    units. lia.
Qed.

Lemma draw_boxes_rectangles_witness :
  length (rects (draw_boxes 124 562 3)) = (2 * Z.to_nat 3)%nat ∧
  rects (draw_boxes 124 562 3) !! 3%nat = Some (216, 546, 28, 16) ∧
  (216, 546, 28, 16) =
  (124 + (box_w + box_w + gap) * Z.of_nat (3 / 2) + box_w * Z.of_nat (3 mod 2),
   562 - box_h, box_w, box_h).
Proof.
  assert (rects (draw_boxes 124 562 3) !! 3%nat = Some (216, 546, 28, 16)) as H3
    by by vm_compute.
  destruct (draw_boxes_rectangles 124 562 3) as [Hlen Hbox].
  split; [exact Hlen|]. split; [exact H3|]. exact (Hbox 3%nat _ H3).
Defined.

(** ** The reps text *)

Lemma pretty_N_go_digits x s :
  Forall (λ c, digit c = true) (list_ascii_of_string s) →
  Forall (λ c, digit c = true) (list_ascii_of_string (pretty_N_go x s)).
Proof.
  revert s. induction (N.lt_wf_0 x) as [x _ IH]; intros s Hs.
  assert (x = 0 ∨ 0 < x)%N as [->|Hx] by lia.
  - by rewrite pretty_N_go_0.
  - rewrite pretty_N_go_step by done. apply IH; [by apply N.div_lt|].
    simpl. constructor; [|done].
    unfold pretty_N_char. by repeat case_match.
Qed.

Lemma pretty_N_digits (x : N) :
  Forall (λ c, digit c = true) (list_ascii_of_string (pretty x)).
Proof.
  unfold pretty, pretty_N. case_decide; [by repeat constructor|].
  apply pretty_N_go_digits. constructor.
Qed.

Lemma pretty_Z_digits (z : Z) :
  0 ≤ z → Forall (λ c, digit c = true) (list_ascii_of_string (pretty z)).
Proof.
  intros Hz. destruct z as [|p|p]; [by repeat constructor| |lia].
  apply (pretty_N_digits (Npos p)).
Qed.

Lemma digit_safe c : digit c = true → safe_char c = true.
Proof.
  unfold digit, safe_char. intros H. rewrite H. by rewrite !orb_true_r.
Qed.

Lemma digit_not_minus c : digit c = true → c ≠ "-"%char.
Proof. by intros H ->. Qed.

Lemma pretty_Z_safe (z : Z) :
  Forall (λ c, safe_char c = true) (list_ascii_of_string (pretty z)).
Proof.
  destruct z as [|p|p].
  - by repeat constructor.
  - eapply Forall_impl; [apply (pretty_N_digits (Npos p))|]. apply digit_safe.
  - change (pretty (Z.neg p)) with ("-" +:+ pretty (Npos p)).
    rewrite chars_app. apply Forall_app. split; [by repeat constructor|].
    eapply Forall_impl; [apply (pretty_N_digits (Npos p))|]. apply digit_safe.
Qed.

(** Without a hyphen there is nothing to rewrite. *)
Lemma replace_go_no_minus l :
  "-"%char ∉ l →
  replace_go ["-"; "9"; "9"]%char ["+"]%char 0 l = l.
Proof.
  induction l as [|c l IH]; [done|]. intros [Hc Hl]%not_elem_of_cons.
  simpl. rewrite decide_False; [by rewrite IH|].
  intros [k Hk]. injection Hk as -> _. done.
Qed.

Lemma replace_go_one_minus a b :
  "-"%char ∉ a → "-"%char ∉ b →
  replace_go ["-"; "9"; "9"]%char ["+"]%char 0 (a ++ "-"%char :: b) =
  a ++ match b with
       | c1 :: c2 :: tl =>
           if decide (c1 = "9"%char ∧ c2 = "9"%char) then "+"%char :: tl
           else "-"%char :: b
       | _ => "-"%char :: b
       end.
Proof.
  intros Ha Hb. induction a as [|c a IH].
  - simpl app. cbn [replace_go]. destruct (decide (_ `prefix_of` _)) as [[k Hk]|Hn].
    + injection Hk as ->. simpl.
      f_equal. apply replace_go_no_minus.
      intros ?. apply Hb. by do 2 right.
    + f_equal. rewrite replace_go_no_minus by done.
      destruct b as [|c1 [|c2 tl]]; try done.
      case_decide as Hc; [|done]. destruct Hc as [-> ->].
      exfalso. apply Hn. by exists tl.
  - apply not_elem_of_cons in Ha as [Hc Ha]. simpl.
    rewrite decide_False; [by rewrite IH|].
    intros [k Hk]. injection Hk as -> _. done.
Qed.

Lemma digits_no_minus s :
  Forall (λ c, digit c = true) (list_ascii_of_string s) →
  "-"%char ∉ list_ascii_of_string s.
Proof.
  intros H Hin. eapply Forall_forall in H; [|done]. done.
Qed.

(** X9: a reps range of two non-negative numbers is drawn as ["lo-hi"],
    unless the decimal text of [hi] begins with 99: then the ["-99"] is
    drawn as ["+"], so that the range (lo, 99) reads ["lo+"] and a range
    such as (8, 990) reads ["8+0"]. *)
Theorem reps_text_range lo hi :
  0 ≤ lo → 0 ≤ hi →
  reps_text [lo; hi] =
  match after_99 (pretty hi) with
  | Some tl => pretty lo +:+ "+" +:+ tl
  | None => pretty lo +:+ "-" +:+ pretty hi
  end.
Proof.
  intros Hlo Hhi. unfold reps_text, replace. simpl map. cbn [join].
  apply chars_inj. rewrite list_ascii_of_string_of_list_ascii.
  rewrite !chars_app.
  change (list_ascii_of_string "-99") with ["-"; "9"; "9"]%char.
  change (list_ascii_of_string "+") with ["+"]%char.
  change (list_ascii_of_string "-" ++ list_ascii_of_string (pretty hi))
    with ("-"%char :: list_ascii_of_string (pretty hi)).
  rewrite replace_go_one_minus
    by (apply digits_no_minus; by apply pretty_Z_digits).
  unfold after_99. destruct (pretty hi) as [|c1 [|c2 tl]]; simpl.
  - by rewrite !chars_app.
  - by rewrite !chars_app.
  - case_decide; by rewrite !chars_app.
Qed.

Lemma reps_text_range_witness :
  0 ≤ 8 ∧ 0 ≤ 99 ∧ 0 ≤ 990 ∧ 0 ≤ 12 ∧
  reps_text [8; 99] = "8+" ∧ reps_text [8; 990] = "8+0" ∧ reps_text [8; 12] = "8-12".
Proof.
  assert (0 ≤ 8) as H8 by lia. assert (0 ≤ 99) as H99 by lia.
  assert (0 ≤ 990) as H990 by lia. assert (0 ≤ 12) as H12 by lia.
  split; [exact H8|]. split; [exact H99|]. split; [exact H990|]. split; [exact H12|].
  split; [exact (reps_text_range 8 99 H8 H99)|].
  split; [exact (reps_text_range 8 990 H8 H990)|].
  exact (reps_text_range 8 12 H8 H12).
Defined.

(** ** Where the rows and their boxes are drawn *)

Lemma arrival_le (m : mark) s : arrival m s ≤ m.1.2.
Proof. unfold arrival. destruct m as [[pg v] [|]], s; simpl; geometry; lia. Qed.

Lemma flow_range m ms :
  flow m ms →
  match ms with m' :: _ => arrival m m'.2 ≤ top_y | [] => True end →
  Forall (λ m' : mark, margin + 30 ≤ m'.1.2 ≤ top_y) ms.
Proof.
  revert m. induction ms as [|m' ms IH]; intros m; [constructor|].
  intros [[Hb Hn] Hf] Hm.
  assert (margin + 30 ≤ m'.1.2 ≤ top_y) as Hr.
  { destruct (decide (arrival m m'.2 < margin + 30)) as [Hc|Hc].
    - destruct (Hb Hc) as [_ ->]. geometry. lia.
    - destruct (Hn ltac:(lia)) as [_ ->]. lia. }
  constructor; [done|]. apply (IH m'); [done|].
  destruct ms as [|m'' ms]; [done|]. pose proof (arrival_le m' m''.2). lia.
Qed.

Lemma render_workout_pdf_range w cat o :
  render_workout_pdf w cat = Ok o →
  Forall (λ pl, margin + 30 ≤ pl.1.2 ≤ top_y) (placements o).
Proof.
  intros (o' & -> & Hf & _ & Hp)%render_workout_pdf_flow.
  change (placements (DrawTitle 0 (title_of w) :: o')) with (placements o').
  assert (Forall (λ m' : mark, margin + 30 ≤ m'.1.2 ≤ top_y) (marks o')) as Hr.
  { apply (flow_range above_top); [done|].
    destruct (marks o') as [|m ms]; [done|]. rewrite Hp.
    unfold arrival, above_top. simpl. geometry. lia. }
  unfold marks in Hr. by apply Forall_fmap in Hr.
Qed.

Lemma rects_canvas_calls o :
  rects (canvas_calls o) =
  flat_map (λ pl, map (box (mm margin + mm 50) (mm pl.1.2 + mm 6))
                      (seq 0 (2 * Z.to_nat (en_sets pl.2))))
           (placements o).
Proof.
  induction o as [|c o IH]; [done|].
  change (canvas_calls (c :: o)) with (calls_of_op c ++ canvas_calls o).
  rewrite rects_app, IH. destruct c as [|pg t|pg v e]; [done|done|].
  simpl calls_of_op. by rewrite rects_draw_exercise_entry.
Qed.

(** X10: every row of a run is drawn with its baseline between 42 mm and
    275 mm, and every box of the sheet lies above the bottom margin and
    below the title line. *)
Theorem boxes_between_margin_and_title w cat o :
  render_workout_pdf w cat = Ok o →
  Forall (λ pl, margin + 30 ≤ pl.1.2 ≤ page_h - margin - 10) (placements o) ∧
  Forall (λ r, mm margin < r.1.1.2 ∧ r.1.1.2 + r.2 < mm page_h - mm margin)
         (rects (canvas_calls o)).
Proof.
  intros Hrange%render_workout_pdf_range. split; [exact Hrange|].
  rewrite rects_canvas_calls. apply Forall_flat_map.
  eapply Forall_impl; [exact Hrange|]. intros [[pg v] e] Hv. simpl in *.
  apply Forall_forall. intros r Hr. apply list_elem_of_lookup in Hr as [k Hk].
  apply lookup_boxes in Hk as [_ ->]. unfold box. cbn [fst snd]. units. lia.
Qed.

Lemma boxes_between_margin_and_title_witness :
  render_workout_pdf singles (table 20)
    = Ok (calls (render_workout_pdf singles (table 20))) ∧
  Forall (λ pl, margin + 30 ≤ pl.1.2 ≤ page_h - margin - 10)
         (placements (calls (render_workout_pdf singles (table 20)))) ∧
  Forall (λ r, mm margin < r.1.1.2 ∧ r.1.1.2 + r.2 < mm page_h - mm margin)
         (rects (canvas_calls (calls (render_workout_pdf singles (table 20))))).
Proof.
  assert (render_workout_pdf singles (table 20)
            = Ok (calls (render_workout_pdf singles (table 20)))) as Hrun
    by by vm_compute.
  split; [exact Hrun|].
  exact (boxes_between_margin_and_title singles (table 20) _ Hrun).
Defined.

Lemma render_workout_pdf_same_page w cat o i pg y1 e1 y2 e2 :
  render_workout_pdf w cat = Ok o →
  placements o !! i = Some (pg, y1, e1) →
  placements o !! S i = Some (pg, y2, e2) →
  y2 = y1 - row_height (en_site e1) - gap_after (en_site e1) (en_site e2).
Proof.
  intros (o' & -> & Hf & _)%render_workout_pdf_flow.
  change (placements (DrawTitle 0 (title_of w) :: o')) with (placements o').
  unfold marks in Hf. intros H1 H2.
  destruct (placements o') as [|pl pls]; [done|]. destruct Hf as [_ Hf].
  simpl in H2.
  assert (follows (mark_of (pg, y1, e1)) (mark_of (pg, y2, e2))) as [Hb Hn].
  { apply (flow_lookup (mark_of pl) (map mark_of pls) i).
    - done.
    - rewrite <- fmap_cons. by rewrite list_lookup_fmap, H1.
    - by rewrite list_lookup_fmap, H2. }
  unfold arrival, mark_of in *. simpl in *.
  destruct (decide (y1 - row_height (en_site e1)
                    - gap_after (en_site e1) (en_site e2) < margin + 30)) as [Hc|Hc].
  - destruct (Hb Hc) as [Hpg _]. lia.
  - by destruct (Hn ltac:(lia)) as [_ ->].
Qed.

(** X11: of two rows drawn one after the other on the same page, the
    boxes of the later one end exactly at the lower edge of the boxes of a
    primary row above a partner row and 7 mm below the boxes of the row
    before a primary row; the boxes of a partner row that follows a
    partner row reach 1 mm into the boxes of the row above, because the
    row step of 7 mm is less than the box height of 8 mm. *)
Theorem boxes_of_consecutive_rows w cat o i pg y1 e1 y2 e2 r1 r2 :
  render_workout_pdf w cat = Ok o →
  placements o !! i = Some (pg, y1, e1) →
  placements o !! S i = Some (pg, y2, e2) →
  r1 ∈ rects (calls_of_op (DrawEntry pg y1 e1)) →
  r2 ∈ rects (calls_of_op (DrawEntry pg y2 e2)) →
  r2.1.1.2 + r2.2 =
  r1.1.1.2 + match en_site e1, en_site e2 with
             | Partner, Partner => mm 1
             | Primary, Partner => 0
             | _, Primary => - mm 7
             end.
Proof.
  intros Hrun H1 H2 Hr1 Hr2.
  pose proof (render_workout_pdf_same_page _ _ _ _ _ _ _ _ _ Hrun H1 H2) as ->.
  simpl calls_of_op in Hr1, Hr2. rewrite rects_draw_exercise_entry in Hr1, Hr2.
  apply list_elem_of_lookup in Hr1 as [k1 [_ ->]%lookup_boxes].
  apply list_elem_of_lookup in Hr2 as [k2 [_ ->]%lookup_boxes].
  unfold box. cbn [fst snd].
  destruct (en_site e1), (en_site e2); simpl; units; geometry; lia.
Qed.

Lemma boxes_of_consecutive_rows_witness :
  render_workout_pdf supersets (table 5)
    = Ok (calls (render_workout_pdf supersets (table 5))) ∧
  placements (calls (render_workout_pdf supersets (table 5))) !! 2%nat
    = Some (0%nat, 252, Build_entry Partner 5 "Squat" 3 "8-12" "" None) ∧
  placements (calls (render_workout_pdf supersets (table 5))) !! 3%nat
    = Some (0%nat, 245, Build_entry Partner 4 "Squat" 3 "8-12" "" None) ∧
  (124, 500, 28, 16)
    ∈ rects (calls_of_op
               (DrawEntry 0 252 (Build_entry Partner 5 "Squat" 3 "8-12" "" None))) ∧
  (124, 486, 28, 16)
    ∈ rects (calls_of_op
               (DrawEntry 0 245 (Build_entry Partner 4 "Squat" 3 "8-12" "" None))) ∧
  486 + 16 = 500 + mm 1.
Proof.
  assert (render_workout_pdf supersets (table 5)
            = Ok (calls (render_workout_pdf supersets (table 5)))) as Hrun
    by by vm_compute.
  assert (placements (calls (render_workout_pdf supersets (table 5))) !! 2%nat
            = Some (0%nat, 252, Build_entry Partner 5 "Squat" 3 "8-12" "" None)) as H2
    by by vm_compute.
  assert (placements (calls (render_workout_pdf supersets (table 5))) !! 3%nat
            = Some (0%nat, 245, Build_entry Partner 4 "Squat" 3 "8-12" "" None)) as H3
    by by vm_compute.
  assert ((124, 500, 28, 16)
            ∈ rects (calls_of_op
                       (DrawEntry 0 252 (Build_entry Partner 5 "Squat" 3 "8-12" "" None))))
    as Hr1 by (vm_compute; left).
  assert ((124, 486, 28, 16)
            ∈ rects (calls_of_op
                       (DrawEntry 0 245 (Build_entry Partner 4 "Squat" 3 "8-12" "" None))))
    as Hr2 by (vm_compute; left).
  split; [exact Hrun|]. split; [exact H2|]. split; [exact H3|].
  split; [exact Hr1|]. split; [exact Hr2|].
  exact (boxes_of_consecutive_rows supersets (table 5) _ 2 0 252 _ 245 _ _ _
           Hrun H2 H3 Hr1 Hr2).
Defined.

(** ** [main] of [workout_template.py] *)

Lemma exercises_map_of_snoc rows r :
  exercises_map_of (rows ++ [r]) = <[r.1 := r.2]> (exercises_map_of rows).
Proof. unfold exercises_map_of. by rewrite foldl_app. Qed.

(** X12: the exercise table becomes a dictionary in which an identifier
    stands for the last row that carries it; an identifier no row carries
    is not a key. *)
Theorem exercises_map_of_lookup rows k :
  exercises_map_of rows !! k = snd <$> last (filter (λ r, r.1 = k) rows).
Proof.
  induction rows as [|r rows IH] using rev_ind; [done|].
  rewrite exercises_map_of_snoc, filter_app.
  destruct (decide (r.1 = k)) as [Hk|Hk].
  - rewrite (filter_cons_True _ r []) by done. rewrite filter_nil, last_snoc.
    simpl. rewrite <- Hk. apply lookup_insert_eq.
  - rewrite (filter_cons_False _ r []) by done. rewrite filter_nil, app_nil_r.
    by rewrite lookup_insert_ne.
Qed.

(** X13: asked for a workout identifier, [main] renders at most one
    workout, the first of the table that carries the identifier (a workout
    without identifier counts as -1); it renders none exactly when no
    workout carries it. *)
Theorem to_render_first i workouts :
  (to_render (Some i) workouts = [] ∧
   Forall (λ w, id_or_minus_one w ≠ i) workouts) ∨
  (∃ before w after,
     workouts = before ++ w :: after ∧
     Forall (λ w', id_or_minus_one w' ≠ i) before ∧
     id_or_minus_one w = i ∧
     to_render (Some i) workouts = [w]).
Proof.
  simpl. induction workouts as [|w ws IH]; simpl.
  - left. by split.
  - case_decide as Hw.
    + right. exists [], w, ws. by repeat split.
    + destruct IH as [[-> Hall]|(before & w' & after & -> & Hb & Hi & ->)].
      * left. split; [done|]. by constructor.
      * right. exists (w :: before), w', after. repeat split; try done.
        by constructor.
Qed.

(** X14: the file name of a sheet consists of letters, digits, hyphens,
    underscores and the dot of the extension, whatever the workout is
    called; it holds no path separator and no white space. *)
Theorem file_name_alphabet w :
  Forall (λ c, safe_char c = true ∨ c = "."%char)
         (list_ascii_of_string (file_name w)).
Proof.
  unfold file_name. rewrite !chars_app, !Forall_app.
  assert (Forall (λ c, safe_char c = true ∨ c = "."%char)
                 (list_ascii_of_string (from_option pretty "" (w_id w)))) as Hid.
  { destruct (w_id w) as [z|]; simpl; [|constructor].
    eapply Forall_impl; [apply pretty_Z_safe|]. auto. }
  split; [repeat constructor; by left|]. split; [done|].
  split; [repeat constructor; by left|]. split.
  - rewrite chars_sanitize. eapply Forall_impl; [apply sanitize_chars_safe|]. auto.
  - repeat constructor; (by left) || by right.
Qed.

(** ** The weights of a recorded set *)

Lemma repeat_list_singleton {A} (a : A) n : repeat_list [a] n = replicate n a.
Proof. unfold repeat_list. induction n as [|n IH]; simpl; [done|]. by rewrite IH. Qed.

(** X15: a performance row is stored with exactly as many weights as reps,
    whatever number of weights was typed. *)
Theorem fit_weights_length {W} (zero : W) reps_list weights_input :
  length (fit_weights zero reps_list weights_input) = length reps_list.
Proof.
  unfold fit_weights.
  destruct (length reps_list =? 0)%nat eqn:E0; simpl.
  { apply Nat.eqb_eq in E0. by rewrite E0. }
  apply Nat.eqb_neq in E0.
  destruct ((length weights_input =? 1)%nat && (1 <? length reps_list)%nat) eqn:E1.
  - apply andb_true_iff in E1 as [E1 _]. apply Nat.eqb_eq in E1.
    destruct weights_input as [|a [|??]]; try done.
    rewrite repeat_list_singleton, !length_replicate, Nat.ltb_irrefl.
    apply length_replicate.
  - destruct (length reps_list <? length weights_input)%nat eqn:E2.
    + apply Nat.ltb_lt in E2. rewrite length_take. lia.
    + apply Nat.ltb_ge in E2.
      destruct (length weights_input <? length reps_list)%nat eqn:E3.
      * apply Nat.ltb_lt in E3. rewrite length_app, length_replicate. lia.
      * apply Nat.ltb_ge in E3. lia.
Qed.

(** X16: a single typed weight is stored for every set; otherwise set [i]
    is stored with the [i]-th typed weight, or with zero when fewer
    weights than reps were typed, and weights beyond the last set are
    dropped. *)
Theorem fit_weights_values {W} (zero : W) reps_list weights_input :
  (∀ a, weights_input = [a] →
        fit_weights zero reps_list weights_input = replicate (length reps_list) a) ∧
  (length weights_input ≠ 1%nat →
   ∀ i, (i < length reps_list)%nat →
        fit_weights zero reps_list weights_input !! i
        = Some (default zero (weights_input !! i))).
Proof.
  unfold fit_weights. split.
  - intros a ->. destruct reps_list as [|r [|r' rs]]; [done|done|].
    change (length (r :: r' :: rs) =? 0)%nat with false.
    change (length [a] =? 1)%nat with true.
    change (1 <? length (r :: r' :: rs))%nat with true.
    cbn [negb andb]. rewrite repeat_list_singleton.
    change (length [a] =? 1)%nat with true. cbn [andb].
    by rewrite !length_replicate, Nat.ltb_irrefl.
  - intros Hne i Hi.
    destruct (length reps_list =? 0)%nat eqn:E0; simpl.
    { apply Nat.eqb_eq in E0. lia. }
    assert ((length weights_input =? 1)%nat = false) as -> by by apply Nat.eqb_neq.
    simpl.
    destruct (length reps_list <? length weights_input)%nat eqn:E2.
    + apply Nat.ltb_lt in E2. rewrite lookup_take_lt by done.
      destruct (weights_input !! i) eqn:E; [done|].
      apply lookup_ge_None in E. lia.
    + destruct (length weights_input <? length reps_list)%nat eqn:E3.
      * destruct (decide (i < length weights_input)%nat) as [Hlt|Hge].
        -- rewrite lookup_app_l by done.
           destruct (weights_input !! i) eqn:E; [done|].
           apply lookup_ge_None in E. lia.
        -- rewrite lookup_app_r by lia. rewrite lookup_replicate_2.
           ++ by rewrite (proj2 (lookup_ge_None weights_input i)) by lia.
           ++ apply Nat.ltb_lt in E3. lia.
      * apply Nat.ltb_ge in E2. apply Nat.ltb_ge in E3.
        destruct (weights_input !! i) eqn:E; [done|].
        apply lookup_ge_None in E. lia.
Qed.

Lemma fit_weights_values_witness :
  fit_weights 0 [8; 8; 8] [50] = replicate (length [8; 8; 8]) 50 ∧
  length [50; 60] ≠ 1%nat ∧ (2 < length [8; 8; 8])%nat ∧
  fit_weights 0 [8; 8; 8] [50; 60] !! 2%nat = Some (default 0 ([50; 60] !! 2%nat)).
Proof.
  assert (length [50; 60] ≠ 1%nat) as Hne by (simpl; lia).
  assert (2 < length [8; 8; 8])%nat as Hlt by (simpl; lia).
  split; [exact (proj1 (fit_weights_values 0 [8; 8; 8] [50]) 50 eq_refl)|].
  split; [exact Hne|]. split; [exact Hlt|].
  exact (proj2 (fit_weights_values 0 [8; 8; 8] [50; 60]) Hne 2%nat Hlt).
Defined.

(** ** The grid of subplots *)

(** X17: with [n] exercises the figure has enough rows for every plot:
    each index below [n] falls on a cell of the grid, different indices
    fall on different cells, and at most one cell of the grid is left over
    (the one the loop of lines 148-151 switches off). *)
Theorem grid_cells n :
  (∀ idx, (idx < grid_rows n * cols)%nat →
          ((cell idx).1 < grid_rows n)%nat ∧ ((cell idx).2 < cols)%nat) ∧
  (∀ idx idx', cell idx = cell idx' → idx = idx') ∧
  (n ≤ grid_rows n * cols < n + cols)%nat.
Proof.
  unfold grid_rows, cell, cols. cbn [fst snd]. split; [|split].
  - intros idx Hidx. split; dlia.
  - intros idx idx' H.
    pose proof (f_equal fst H) as H1. pose proof (f_equal snd H) as H2.
    cbn [fst snd] in H1, H2. dlia.
  - split; dlia.
Qed.

Lemma grid_cells_witness :
  (4 < grid_rows 5 * cols)%nat ∧
  ((cell 4).1 < grid_rows 5)%nat ∧ ((cell 4).2 < cols)%nat ∧
  (5 ≤ grid_rows 5 * cols < 5 + cols)%nat.
Proof.
  assert (4 < grid_rows 5 * cols)%nat as H by (vm_compute; lia).
  destruct (grid_cells 5) as (Hin & _ & Hn).
  split; [exact H|]. split; [exact (proj1 (Hin 4%nat H))|].
  split; [exact (proj2 (Hin 4%nat H))|]. exact Hn.
Defined.

(** ** [main] stops at the first workout that raises *)

Lemma main_loop_app out_dir em ws1 ws2 :
  Forall (λ w, ∃ o, render_workout_pdf w em = Ok o) ws1 →
  main_loop out_dir em (ws1 ++ ws2) =
  ((main_loop out_dir em ws1).1 ++ (main_loop out_dir em ws2).1,
   (main_loop out_dir em ws2).2).
Proof.
  induction 1 as [|w ws1 [o Ho] _ IH]; simpl.
  - by destruct (main_loop out_dir em ws2).
  - rewrite Ho, IH. by destruct (main_loop out_dir em ws1).
Qed.

Lemma main_loop_all_ok out_dir em ws :
  Forall (λ w, ∃ o, render_workout_pdf w em = Ok o) ws →
  (main_loop out_dir em ws).2 = None ∧
  written (main_loop out_dir em ws).1
  = map (λ w, (file_name w, calls (render_workout_pdf w em))) ws.
Proof.
  induction 1 as [|w ws [o Ho] _ [IH1 IH2]]; simpl; [done|].
  rewrite Ho. destruct (main_loop out_dir em ws) as [effects raised].
  simpl in *. by rewrite IH1, IH2.
Qed.

(** X18: [main] writes the sheets in the order of the workouts and stops
    at the first workout whose rendering raises: the sheets of the
    workouts before it are written, its own sheet and the sheets of all
    workouts after it are not, also of those that would render. *)
Theorem main_stops_at_first_exception out_dir em ws1 w ws2 e :
  Forall (λ w', ∃ o, render_workout_pdf w' em = Ok o) ws1 →
  render_workout_pdf w em = Raise e →
  (main_loop out_dir em (ws1 ++ w :: ws2)).2 = Some e ∧
  written (main_loop out_dir em (ws1 ++ w :: ws2)).1
  = map (λ w', (file_name w', calls (render_workout_pdf w' em))) ws1.
Proof.
  intros Hok Hw. rewrite main_loop_app by done.
  destruct (main_loop_all_ok out_dir em ws1 Hok) as [_ Hfiles].
  simpl. rewrite Hw. simpl. by rewrite app_nil_r.
Qed.

Lemma main_stops_at_first_exception_witness :
  Forall (λ w', ∃ o, render_workout_pdf w' (table 4) = Ok o) [four_with_pair] ∧
  render_workout_pdf (sheet [99] []) (table 4) = Raise UnboundLocalError ∧
  (main_loop "output" (table 4)
     ([four_with_pair] ++ sheet [99] [] :: [four_with_pair])).2
    = Some UnboundLocalError ∧
  written (main_loop "output" (table 4)
             ([four_with_pair] ++ sheet [99] [] :: [four_with_pair])).1
    = map (λ w', (file_name w', calls (render_workout_pdf w' (table 4))))
          [four_with_pair].
Proof.
  assert (Forall (λ w', ∃ o, render_workout_pdf w' (table 4) = Ok o) [four_with_pair])
    as Hok.
  { constructor; [|constructor]. eexists. by vm_compute. }
  assert (render_workout_pdf (sheet [99] []) (table 4) = Raise UnboundLocalError)
    as Hw by by vm_compute.
  split; [exact Hok|]. split; [exact Hw|].
  exact (main_stops_at_first_exception "output" (table 4) [four_with_pair]
           (sheet [99] []) [four_with_pair] UnboundLocalError Hok Hw).
Defined.

(** X19: when no workout raises, [main] writes one sheet for every
    workout it was asked to render, in their order, each under the file
    name of its workout; with a workout identifier that is at most one
    sheet. *)
Theorem main_writes_every_sheet out_dir workout_id exercise_rows workouts :
  Forall (λ w, ∃ o, render_workout_pdf w (exercises_map_of exercise_rows) = Ok o)
         (to_render workout_id workouts) →
  (main out_dir workout_id exercise_rows workouts).2 = None ∧
  written (main out_dir workout_id exercise_rows workouts).1
  = map (λ w, (file_name w,
               calls (render_workout_pdf w (exercises_map_of exercise_rows))))
        (to_render workout_id workouts) ∧
  (is_Some workout_id →
   (length (written (main out_dir workout_id exercise_rows workouts).1) ≤ 1)%nat).
Proof.
  intros Hok. unfold main.
  assert ((to_render workout_id workouts = [] ∨
           ∃ w ws, to_render workout_id workouts = w :: ws)) as [E|(w & ws & E)]
    by (destruct (to_render workout_id workouts); eauto).
  - rewrite E. repeat split; simpl; try done. lia.
  - rewrite E in *. destruct (main_loop_all_ok out_dir _ _ Hok) as [H1 H2].
    split; [done|]. split; [done|].
    intros [i ->]. rewrite H2, length_map, <- E. simpl.
    clear. induction workouts as [|w ws IH]; simpl; [lia|].
    case_decide; simpl; lia.
Qed.

Lemma main_writes_every_sheet_witness :
  Forall (λ w, ∃ o, render_workout_pdf w (exercises_map_of [(1, plain_exercise)]) = Ok o)
         (to_render (Some 1) [sheet [1] []; sheet [1; 1] []]) ∧
  (main "output" (Some 1) [(1, plain_exercise)] [sheet [1] []; sheet [1; 1] []]).2
    = None ∧
  written (main "output" (Some 1) [(1, plain_exercise)]
             [sheet [1] []; sheet [1; 1] []]).1
    = map (λ w, (file_name w,
                 calls (render_workout_pdf w (exercises_map_of [(1, plain_exercise)]))))
          (to_render (Some 1) [sheet [1] []; sheet [1; 1] []]) ∧
  Nat.le (length (written (main "output" (Some 1) [(1, plain_exercise)]
                             [sheet [1] []; sheet [1; 1] []]).1)) 1.
Proof.
  assert (Forall (λ w, ∃ o, render_workout_pdf w (exercises_map_of [(1, plain_exercise)])
                            = Ok o)
                 (to_render (Some 1) [sheet [1] []; sheet [1; 1] []])) as Hok.
  { constructor; [|constructor]. eexists. by vm_compute. }
  destruct (main_writes_every_sheet "output" (Some 1) [(1, plain_exercise)]
              [sheet [1] []; sheet [1; 1] []] Hok) as (H1 & H2 & H3).
  split; [exact Hok|]. split; [exact H1|]. split; [exact H2|].
  apply H3. by eexists.
Defined.

(** ** Identifiers listed more than once *)

(** X20: an identifier that is already drawn is passed over, the step
    draws nothing, changes nothing and does not raise; so a run over a list
    with repeated identifiers is the run over the list with the repeats
    dropped, with the same calls or the same exception.  Every listed
    identifier is drawn, and none twice when no partner list of the
    adjacency map repeats an identifier. *)
Theorem repeated_identifier_skipped w cat :
  (∀ pm x st, x ∈ rendered st →
     render_exercise (title_of w) cat (w_exercises w) pm x st = Ok ([], st)) ∧
  render_workout_pdf w cat = render_workout_pdf (without_repeats w) cat ∧
  (∀ o, render_workout_pdf w cat = Ok o →
     ∀ x, x ∈ w_exercises w → x ∈ rendered_ids o) ∧
  (∀ o pm, render_workout_pdf w cat = Ok o →
     find_pairs_map (w_paired_sets w) = Ok pm →
     (∀ k, NoDup (partners_of pm k)) → NoDup (rendered_ids o)).
Proof.
  split; [|split; [|split]].
  - intros pm x st Hx. by apply render_exercise_skip.
  - unfold render_workout_pdf, without_repeats. simpl.
    change (title_of {| w_id := w_id w; w_name := w_name w;
                        w_exercises := first_occurrences ∅ (w_exercises w);
                        w_paired_sets := w_paired_sets w |}) with (title_of w).
    destruct (find_pairs_map (w_paired_sets w)) as [pm|]; [|done]. simpl.
    rewrite (render_loop_first_occurrences _ _ _ _ ∅) by done.
    rewrite (render_loop_ext _ _ (w_exercises w) _
               (first_occurrences ∅ (w_exercises w))); [done|].
    intros p. rewrite elem_of_first_occurrences. set_solver.
  - intros o (pm & _ & Hm & _)%render_partition x Hx. by apply Hm.
  - intros o pm (pm' & Hpm' & _ & Hnd)%render_partition Hpm.
    rewrite Hpm' in Hpm. injection Hpm as ->. done.
Qed.

Lemma repeated_identifier_skipped_witness :
  render_workout_pdf repeats (table 3)
    = Ok (calls (render_workout_pdf repeats (table 3))) ∧
  find_pairs_map (w_paired_sets repeats) = Ok (<[2 := [1]]> (<[1 := [2]]> ∅)) ∧
  (∀ k, NoDup (partners_of (<[2 := [1]]> (<[1 := [2]]> ∅)) k)) ∧
  render_workout_pdf repeats (table 3)
    = render_workout_pdf (without_repeats repeats) (table 3) ∧
  (∀ x, x ∈ w_exercises repeats →
        x ∈ rendered_ids (calls (render_workout_pdf repeats (table 3)))) ∧
  NoDup (rendered_ids (calls (render_workout_pdf repeats (table 3)))) ∧
  rendered_ids (calls (render_workout_pdf repeats (table 3))) = [1; 2; 3].
Proof.
  assert (render_workout_pdf repeats (table 3)
            = Ok (calls (render_workout_pdf repeats (table 3)))) as Hrun
    by by vm_compute.
  assert (find_pairs_map (w_paired_sets repeats)
            = Ok (<[2 := [1]]> (<[1 := [2]]> ∅))) as Hpm by by vm_compute.
  assert (∀ k, NoDup (partners_of (<[2 := [1]]> (<[1 := [2]]> ∅)) k)) as Hnd.
  { intros k. unfold partners_of.
    destruct (decide (k = 2)) as [->|H2].
    - rewrite lookup_insert_eq. apply NoDup_singleton.
    - rewrite lookup_insert_ne by done. destruct (decide (k = 1)) as [->|H1].
      + rewrite lookup_insert_eq. apply NoDup_singleton.
      + rewrite lookup_insert_ne, lookup_empty by done. constructor. }
  destruct (repeated_identifier_skipped repeats (table 3)) as (_ & Heq & Hall & Honce).
  split; [exact Hrun|]. split; [exact Hpm|]. split; [exact Hnd|].
  split; [exact Heq|]. split; [exact (Hall _ Hrun)|].
  split; [exact (Honce _ _ Hrun Hpm Hnd)|]. by vm_compute.
Defined.

(** ** The page break at the limit *)

(** X21: where the cursor in exact lengths equals the limit, rounding
    decides.  In the workout [at_limit] the last row is reached, in exact
    lengths, with the cursor at 42 mm, the limit itself, and would stay on
    the first page; the cursor the source has computed by then is
    119.05511811023621 points, below the limit of 119.05511811023624
    points, and the row is drawn at the top of a second page. *)
Theorem rounding_decides_at_the_limit :
  (∃ o pl1 pl2,
     render_workout_pdf at_limit (table 20) = Ok o ∧
     placements o !! 18%nat = Some pl1 ∧ placements o !! 19%nat = Some pl2 ∧
     arrival (mark_of pl1) (en_site pl2.2) = margin + 30 ∧
     pl2.1 = (0%nat, margin + 30)) ∧
  (∃ o pl1 pl2,
     render_workout_pdf64 at_limit (table 20) = Ok o ∧
     placements64 o !! 18%nat = Some pl1 ∧ placements64 o !! 19%nat = Some pl2 ∧
     let cursor := arrival64 pl1.1.2 (en_site pl1.2) (en_site pl2.2) in
     (cursor <? limit64)%float = true ∧
     pl1.1.1 = 0%nat ∧ pl2.1 = (1%nat, top_y64)).
Proof.
  split.
  - eexists _, _, _. split; [by vm_compute|].
    split; [by vm_compute|]. split; [by vm_compute|]. by vm_compute.
  - eexists _, _, _. split; [by vm_compute|].
    split; [by vm_compute|]. split; [by vm_compute|]. by vm_compute.
Qed.
